(** * Verification of the ayon-usd addon packager and client bootstrapper

    Shallow embedding of [create_package.py] and of
    [client/ayon_usd/__init__.py].  The file system is a tree of named
    entries; the packager runs in a state-and-exception monad whose
    exceptions keep the side effects done before they were raised, as a
    Python exception does. *)

From Stdlib Require Import String List Ascii Bool Arith Lia Permutation ZArith.
From Stdlib Require Import Strings.Byte.
Set Warnings "-register-all".
Import ListNotations.
Open Scope string_scope.
Open Scope list_scope.

(** ** Python exceptions that the modelled code can raise *)

Inductive exn : Type :=
| FileNotFoundError
| FileExistsError
| NotADirectoryError
| IsADirectoryError
| SameFileError
| AttributeError
| URLError
| ValueError (msg : string).

Inductive res (A : Type) : Type :=
| Ok (a : A)
| Exn (e : exn).
Arguments Ok {A} a.
Arguments Exn {A} e.

(** ** File system

    A directory is the list of its entries; the whole file system is the
    list of entries of the working directory, and a path is the list of
    its components relative to it.  The empty path is the string [""],
    which names nothing ([os.path.exists("")] is false). *)

Inductive entry : Type :=
| EFile (name : string) (data : list byte)
| EDir (name : string) (children : list entry).

Definition fsys := list entry.
Definition path := list string.

Definition entry_name (e : entry) : string :=
  match e with EFile n _ => n | EDir n _ => n end.

Inductive node : Type :=
| NFile (data : list byte)
| NDir (children : list entry).

Fixpoint find_entry (n : string) (es : list entry) : option entry :=
  match es with
  | [] => None
  | e :: es' => if String.eqb (entry_name e) n then Some e else find_entry n es'
  end.

(** Replace the first entry named [n], or add [e] at the end. *)
Fixpoint set_entry (n : string) (e : entry) (es : list entry) : list entry :=
  match es with
  | [] => [e]
  | e' :: es' =>
      if String.eqb (entry_name e') n then e :: es' else e' :: set_entry n e es'
  end.

(** Unlink the entry named [n] (a directory holds at most one). *)
Fixpoint remove_entry (n : string) (es : list entry) : list entry :=
  match es with
  | [] => []
  | e' :: es' =>
      if String.eqb (entry_name e') n then remove_entry n es'
      else e' :: remove_entry n es'
  end.

Fixpoint lookup_in (es : list entry) (p : path) : option node :=
  match p with
  | [] => Some (NDir es)
  | n :: p' =>
      match find_entry n es with
      | Some (EFile _ d) => match p' with [] => Some (NFile d) | _ => None end
      | Some (EDir _ cs) => lookup_in cs p'
      | None => None
      end
  end.

Definition lookup (fs : fsys) (p : path) : option node :=
  match p with [] => None | _ => lookup_in fs p end.

(** [os.path.exists], [os.path.isdir], [os.path.isfile] *)
Definition path_exists (fs : fsys) (p : path) : bool :=
  match lookup fs p with Some _ => true | None => false end.
Definition isdir (fs : fsys) (p : path) : bool :=
  match lookup fs p with Some (NDir _) => true | _ => false end.
Definition isfile (fs : fsys) (p : path) : bool :=
  match lookup fs p with Some (NFile _) => true | _ => false end.

(** [os.listdir] *)
Definition listdir (fs : fsys) (p : path) : res (list string) :=
  match lookup fs p with
  | Some (NDir es) => Ok (map entry_name es)
  | Some (NFile _) => Exn NotADirectoryError
  | None => Exn FileNotFoundError
  end.

(** Reading a whole file ([open(p, "rb").read()]). *)
Definition read_file (fs : fsys) (p : path) : res (list byte) :=
  match lookup fs p with
  | Some (NFile d) => Ok d
  | Some (NDir _) => Exn IsADirectoryError
  | None => Exn FileNotFoundError
  end.

Fixpoint split_last {A : Type} (l : list A) : option (list A * A) :=
  match l with
  | [] => None
  | [x] => Some ([], x)
  | x :: l' =>
      match split_last l' with
      | Some (h, t) => Some (x :: h, t)
      | None => None
      end
  end.

(** Apply [g] to the entries of the directory at [p]; the system call
    fails as the kernel does when a component is missing or is a file. *)
Fixpoint modify_in (es : list entry) (p : path)
  (g : list entry -> res (list entry)) : res (list entry) :=
  match p with
  | [] => g es
  | n :: p' =>
      match find_entry n es with
      | Some (EDir _ cs) =>
          match modify_in cs p' g with
          | Ok cs' => Ok (set_entry n (EDir n cs') es)
          | Exn e => Exn e
          end
      | Some (EFile _ _) => Exn NotADirectoryError
      | None => Exn FileNotFoundError
      end
  end.

Definition at_parent (fs : fsys) (p : path)
  (g : string -> list entry -> res (list entry)) : res fsys :=
  match split_last p with
  | None => Exn FileNotFoundError
  | Some (parent, n) => modify_in fs parent (g n)
  end.

(** [open(p, "w")] followed by writing [d]. *)
Definition write_file (fs : fsys) (p : path) (d : list byte) : res fsys :=
  at_parent fs p (fun n cs =>
    match find_entry n cs with
    | Some (EDir _ _) => Exn IsADirectoryError
    | _ => Ok (set_entry n (EFile n d) cs)
    end).

(** [os.mkdir] *)
Definition mkdir (fs : fsys) (p : path) : res fsys :=
  at_parent fs p (fun n cs =>
    match find_entry n cs with
    | Some _ => Exn FileExistsError
    | None => Ok (set_entry n (EDir n []) cs)
    end).

(** [os.remove] *)
Definition remove (fs : fsys) (p : path) : res fsys :=
  at_parent fs p (fun n cs =>
    match find_entry n cs with
    | Some (EFile _ _) => Ok (remove_entry n cs)
    | Some (EDir _ _) => Exn IsADirectoryError
    | None => Exn FileNotFoundError
    end).

(** [shutil.rmtree] *)
Definition rmtree (fs : fsys) (p : path) : res fsys :=
  at_parent fs p (fun n cs =>
    match find_entry n cs with
    | Some (EDir _ _) => Ok (remove_entry n cs)
    | Some (EFile _ _) => Exn NotADirectoryError
    | None => Exn FileNotFoundError
    end).

(** [os.makedirs(name)] (exist_ok=False):
<<
    head, tail = path.split(name)
    if head and tail and not path.exists(head):
        try: makedirs(head)
        except FileExistsError: pass
    mkdir(name)
>>
    [fuel] is the number of components of [p]. *)
Fixpoint makedirs_go (fuel : nat) (fs : fsys) (p : path) : res fsys :=
  match fuel with
  | O => mkdir fs p
  | S f =>
      match split_last p with
      | None => mkdir fs p
      | Some (head, _) =>
          let r :=
            if negb (match head with [] => true | _ => false end)
               && negb (path_exists fs head)
            then match makedirs_go f fs head with
                 | Ok fs' => Ok fs'
                 | Exn FileExistsError => Ok fs
                 | Exn e => Exn e
                 end
            else Ok fs in
          match r with
          | Ok fs' => mkdir fs' p
          | Exn e => Exn e
          end
      end
  end.

Definition makedirs (fs : fsys) (p : path) : res fsys :=
  makedirs_go (length p) fs p.

(** [Path.mkdir(exist_ok=True)]: an [OSError] is ignored when the path is
    a directory. *)
Definition mkdir_exist_ok (fs : fsys) (p : path) : res fsys :=
  match mkdir fs p with
  | Ok fs' => Ok fs'
  | Exn e => if isdir fs p then Ok fs else Exn e
  end.

(** [Path.mkdir(parents=True, exist_ok=eo)]:
<<
    try: os.mkdir(self)
    except FileNotFoundError:
        if not parents or self.parent == self: raise
        self.parent.mkdir(parents=True, exist_ok=True)
        self.mkdir(parents=False, exist_ok=exist_ok)
    except OSError:
        if not exist_ok or not self.is_dir(): raise
>>
    The parent of a one-component path is the working directory, which
    exists. *)
Fixpoint mkdir_parents_go (fuel : nat) (exist_ok : bool) (fs : fsys) (p : path)
  : res fsys :=
  match mkdir fs p with
  | Ok fs' => Ok fs'
  | Exn FileNotFoundError =>
      match fuel, split_last p with
      | S f, Some (parent, _) =>
          match (match parent with
                 | [] => Ok fs
                 | _ => mkdir_parents_go f true fs parent
                 end) with
          | Ok fs1 =>
              if exist_ok then mkdir_exist_ok fs1 p else mkdir fs1 p
          | Exn e => Exn e
          end
      | _, _ => Exn FileNotFoundError
      end
  | Exn e => if exist_ok && isdir fs p then Ok fs else Exn e
  end.

Definition mkdir_parents (fs : fsys) (p : path) : res fsys :=
  mkdir_parents_go (length p) false fs p.

(** [shutil.copy] / [shutil.copy2] (metadata is not modelled): a
    directory destination receives the file under the source's base name;
    [copyfile] refuses to copy a file onto itself. *)
Definition last_component (p : path) : string :=
  match split_last p with Some (_, n) => n | None => "" end.

Definition copy2 (fs : fsys) (src dst : path) : res fsys :=
  let dst' := if isdir fs dst then dst ++ [last_component src] else dst in
  if list_eq_dec string_dec src dst' then Exn SameFileError else
  match read_file fs src with
  | Ok d => write_file fs dst' d
  | Exn e => Exn e
  end.

Fixpoint entry_size (e : entry) : nat :=
  match e with
  | EFile _ _ => 1
  | EDir _ cs =>
      S ((fix go (l : list entry) : nat :=
            match l with [] => 0 | c :: l' => entry_size c + go l' end) cs)
  end.

Definition fs_size (fs : fsys) : nat := list_sum (map entry_size fs).

(** ** Ignore patterns

    A compiled pattern is modelled by its [regex.search]: whether it
    matches somewhere in the string. *)

Definition regex := string -> bool.

Definition starts_with (pre s : string) : bool := String.prefix pre s.

Definition ends_with (suf s : string) : bool :=
  let n := String.length s in
  let m := String.length suf in
  Nat.leb m n && String.eqb (substring (n - m) m s) suf.

Definition newline : string := String (ascii_of_nat 10) EmptyString.

(** [$] matches at the end of the string or before a final newline. *)
Definition ends_with_dollar (suf s : string) : bool :=
  ends_with suf s || ends_with (suf ++ newline) s.

(** [r"^\."]; ["^__pycache__$"]; [r"\.pyc$"] *)
Definition re_leading_dot : regex := starts_with ".".
Definition re_pycache : regex :=
  fun s => String.eqb s "__pycache__" || String.eqb s ("__pycache__" ++ newline).
Definition re_pyc : regex := ends_with_dollar ".pyc".

Definition IGNORE_DIR_PATTERNS : list regex := [re_leading_dot; re_pycache].
Definition IGNORE_FILE_PATTERNS : list regex := [re_leading_dot; re_pyc].

Definition _value_match_regexes (value : string) (regexes : list regex) : bool :=
  existsb (fun regex => regex value) regexes.

(** ** [find_files_in_subdir]

    Breadth-first walk with an explicit queue of [(dirpath, parents)].
    [scan_names] is the body of [for name in os.listdir(dirpath)]. *)

Definition sep_join (items : list string) : string := String.concat "/" items.

Fixpoint scan_names (fs : fsys) (fpats dpats : list regex)
  (dirpath : path) (parents : list string) (names : list string)
  (output : list (path * string)) (queue : list (path * list string))
  : list (path * string) * list (path * list string) :=
  match names with
  | [] => (output, queue)
  | name :: names' =>
      let p := dirpath ++ [name] in
      if isfile fs p then
        if negb (_value_match_regexes name fpats)
        then scan_names fs fpats dpats dirpath parents names'
               (output ++ [(p, sep_join (parents ++ [name]))]) queue
        else scan_names fs fpats dpats dirpath parents names' output queue
      else
        if negb (_value_match_regexes name dpats)
        then scan_names fs fpats dpats dirpath parents names' output
               (queue ++ [(p, parents ++ [name])])
        else scan_names fs fpats dpats dirpath parents names' output queue
  end.

(** The [while hierarchy_queue] loop; [fuel] bounds the number of
    directories visited, see [find_files_in_subdir]. *)
Fixpoint walk (fs : fsys) (fpats dpats : list regex) (fuel : nat)
  (queue : list (path * list string)) (output : list (path * string))
  : res (list (path * string)) :=
  match fuel with
  | O => Ok output
  | S fuel' =>
      match queue with
      | [] => Ok output
      | (dirpath, parents) :: queue' =>
          match listdir fs dirpath with
          | Exn e => Exn e
          | Ok names =>
              let '(output', queue'') :=
                scan_names fs fpats dpats dirpath parents names output queue' in
              walk fs fpats dpats fuel' queue'' output'
          end
      end
  end.

(** A directory is visited at most once, and every visited directory is
    an entry of the file system or [src_path] itself, so
    [S (fs_size fs)] rounds of the loop reach the empty queue. *)
Definition find_files_in_subdir (fs : fsys) (src_path : path)
  (ignore_file_patterns ignore_dir_patterns : option (list regex))
  : res (list (path * string)) :=
  let fpats := match ignore_file_patterns with
               | None => IGNORE_FILE_PATTERNS | Some l => l end in
  let dpats := match ignore_dir_patterns with
               | None => IGNORE_DIR_PATTERNS | Some l => l end in
  walk fs fpats dpats (S (fs_size fs)) [(src_path, [])] [].

(** ** The walker's contract, following the spec's words

    A directory listing is well formed when its names are distinct, as in
    every real directory. *)

Fixpoint wf_entry (e : entry) : Prop :=
  match e with
  | EFile _ _ => True
  | EDir _ cs =>
      NoDup (map entry_name cs) /\
      (fix go (l : list entry) : Prop :=
         match l with [] => True | c :: l' => wf_entry c /\ go l' end) cs
  end.

Definition wf_dir (es : list entry) : Prop :=
  NoDup (map entry_name es) /\ Forall wf_entry es.

(** Depth-first listing of the files kept under a directory entry. *)
Fixpoint dfs_entry (fpats dpats : list regex) (dirpath : path)
  (parents : list string) (e : entry) : list (path * string) :=
  match e with
  | EFile n _ =>
      if _value_match_regexes n fpats then []
      else [(dirpath ++ [n], sep_join (parents ++ [n]))]
  | EDir n cs =>
      if _value_match_regexes n dpats then []
      else
        (fix go (l : list entry) : list (path * string) :=
           match l with
           | [] => []
           | c :: l' =>
               dfs_entry fpats dpats (dirpath ++ [n]) (parents ++ [n]) c ++ go l'
           end) cs
  end.

(** What a queued directory [(dirpath, parents)] contributes. *)
Definition queue_files (fs : fsys) (fpats dpats : list regex)
  (item : path * list string) : list (path * string) :=
  let '(dirpath, parents) := item in
  match lookup fs dirpath with
  | Some (NDir es) => flat_map (dfs_entry fpats dpats dirpath parents) es
  | _ => []
  end.

Definition queue_size (fs : fsys) (q : list (path * list string)) : nat :=
  list_sum (map (fun item =>
    match lookup fs (fst item) with
    | Some (NDir es) => S (list_sum (map entry_size es))
    | _ => 0
    end) q).

Definition good_item (fs : fsys) (item : path * list string) : Prop :=
  exists es, lookup fs (fst item) = Some (NDir es) /\ wf_dir es.

Definition node_of (e : entry) : node :=
  match e with EFile _ d => NFile d | EDir _ cs => NDir cs end.


(** ** The packager's monad: state is the file system, and an exception
    keeps the state reached when it was raised. *)

Definition M (A : Type) : Type := fsys -> res A * fsys.

Definition ret {A : Type} (a : A) : M A := fun fs => (Ok a, fs).

Definition bind {A B : Type} (m : M A) (k : A -> M B) : M B :=
  fun fs =>
    match m fs with
    | (Ok a, fs') => k a fs'
    | (Exn e, fs') => (Exn e, fs')
    end.

Notation "x <- m ;; k" := (bind m (fun x => k))
  (at level 61, m at next level, right associativity).
Notation "m ;; k" := (bind m (fun _ => k))
  (at level 61, right associativity).

Definition raise {A : Type} (e : exn) : M A := fun fs => (Exn e, fs).

(** A read-only query. *)
Definition query {A : Type} (f : fsys -> A) : M A := fun fs => (Ok (f fs), fs).

(** A read-only call that may raise. *)
Definition lift_res {A : Type} (f : fsys -> res A) : M A :=
  fun fs => match f fs with Ok a => (Ok a, fs) | Exn e => (Exn e, fs) end.

(** A system call that updates the file system or raises. *)
Definition lift_io (f : fsys -> res fsys) : M unit :=
  fun fs => match f fs with Ok fs' => (Ok tt, fs') | Exn e => (Exn e, fs) end.

(** [with contextlib.suppress(Exception): ...] *)
Definition suppress (m : M unit) : M unit :=
  fun fs => let '(_, fs') := m fs in (Ok tt, fs').

Fixpoint mapM_ {A : Type} (f : A -> M unit) (l : list A) : M unit :=
  match l with
  | [] => ret tt
  | x :: l' => f x ;; mapM_ f l'
  end.

(** ** [calculate_file_checksum]

    A [hashlib] constructor gives a streaming hash object: an initial
    state, [update] and [hexdigest]. *)

Record hash_algo : Type := {
  h_state : Type;
  h_init : h_state;
  h_update : h_state -> list byte -> h_state;
  h_hexdigest : h_state -> string
}.

(** [f.read(chunk_size)] on the unread part of a file: a negative size
    reads everything. *)
Definition read_chunk (chunk_size : Z) (data : list byte) : list byte :=
  if (chunk_size <? 0)%Z then data else firstn (Z.to_nat chunk_size) data.

(** [for chunk in iter(lambda: f.read(chunk_size), b""): hash_obj.update(chunk)];
    every round but the last consumes at least one byte, so [fuel] one
    more than the file length is enough. *)
Fixpoint hash_chunks (H : hash_algo) (chunk_size : Z) (fuel : nat)
  (st : h_state H) (data : list byte) : h_state H :=
  match fuel with
  | O => st
  | S fuel' =>
      match read_chunk chunk_size data with
      | [] => st
      | chunk =>
          hash_chunks H chunk_size fuel' (h_update H st chunk)
            (skipn (length chunk) data)
      end
  end.

Definition calculate_file_checksum (hashlib : string -> option hash_algo)
  (fs : fsys) (filepath : path) (hash_algorithm : string) (chunk_size : Z)
  : res string :=
  match hashlib hash_algorithm with
  | None => Exn AttributeError
  | Some H =>
      match read_file fs filepath with
      | Exn e => Exn e
      | Ok data =>
          Ok (h_hexdigest H (hash_chunks H chunk_size (S (length data)) (h_init H) data))
      end
  end.

(** ** Source spec and archive records *)

Record source_info : Type := {
  url : string;
  checksum : string;
  checksum_algorithm : string
}.

Record file_info : Type := {
  fi_name : string;
  fi_filename : string;
  fi_checksum : string;
  fi_checksum_algorithm : string;
  fi_platform : string
}.

Definition AYON_SOURCE_URL : string := "https://distribute.openpype.io/thirdparty".

Definition USD_SOURCES : list (string * list (string * source_info)) :=
  [("24.03",
    [("windows",
      {| url := AYON_SOURCE_URL ++ "/usd-24.03_win64_py39.zip";
         checksum := "7d7852b9c8e3501e5f64175decc08d70e3bf1c083faaaf2c1a8aa8f9af43ab30";
         checksum_algorithm := "sha256" |});
     ("linux",
      {| url := AYON_SOURCE_URL ++ "/usd-24.03_linux_py39.zip";
         checksum := "27010ad67d5acd25e3c95b1ace4ab30e047b5a9e48082db0545ae44ae7ec9b09";
         checksum_algorithm := "sha256" |})])].

(** The [(item_name, platform_name, platform_info)] triples in the order
    of the two nested [for] loops (dicts iterate in insertion order). *)
Definition usd_entries (sources : list (string * list (string * source_info)))
  : list (string * string * source_info) :=
  flat_map (fun '(item_name, item_info) =>
    map (fun '(platform_name, platform_info) =>
      (item_name, platform_name, platform_info)) item_info) sources.

(** [s.split("/")[-1]] *)
Fixpoint last_segment_go (s cur : string) : string :=
  match s with
  | EmptyString => cur
  | String c s' =>
      if Ascii.eqb c "/"%char then last_segment_go s' ""
      else last_segment_go s' (cur ++ String c EmptyString)
  end.
Definition last_segment (s : string) : string := last_segment_go s "".

(** [s.split("/")] *)
Fixpoint split_slash_go (s cur : string) : list string :=
  match s with
  | EmptyString => [cur]
  | String c s' =>
      if Ascii.eqb c "/"%char then cur :: split_slash_go s' ""
      else split_slash_go s' (cur ++ String c EmptyString)
  end.
Definition split_slash (s : string) : list string := split_slash_go s "".

(** [Path(p) / name]: an empty name leaves the path unchanged. *)
Definition path_div (p : path) (name : string) : path :=
  if String.eqb name "" then p else p ++ [name].

Definition dirname (p : path) : path :=
  match split_last p with Some (h, _) => h | None => [] end.

Definition client_version_content (name version : string) : string :=
  let nl := String (ascii_of_nat 10) EmptyString in
  let dq := String (ascii_of_nat 34) EmptyString in
  "# -*- coding: utf-8 -*-" ++ nl ++
  dq ++ dq ++ dq ++ "Package declaring ayon_usd addon version." ++ nl ++ nl ++
  "Version is regenerated by `create_package.py` script or the" ++ nl ++
  "build system based on the content of package.py." ++ nl ++ nl ++
  "Do not manually edit this file." ++ nl ++
  dq ++ dq ++ dq ++ nl ++
  "name = " ++ dq ++ name ++ dq ++ nl ++
  "__version__ = " ++ dq ++ version ++ dq ++ nl.

(** [os.walk(top)] flattened to the [(src_path, arcname)] pairs that
    [create_server_package] writes: top-down, the files of a directory
    before its subdirectories; [arcname] is the path relative to [top]. *)
Definition arcname (rel : list string) (filename : string) : string :=
  match rel with [] => filename | _ => sep_join (rel ++ [filename]) end.

Definition files_of (root : path) (rel : list string) (es : list entry)
  : list (path * string) :=
  flat_map (fun e =>
    match e with
    | EFile f _ => [(root ++ [f], arcname rel f)]
    | EDir _ _ => []
    end) es.

Fixpoint walk_entry (root : path) (rel : list string) (e : entry)
  : list (path * string) :=
  match e with
  | EFile _ _ => []
  | EDir n cs =>
      files_of (root ++ [n]) (rel ++ [n]) cs ++
      (fix go (l : list entry) : list (path * string) :=
         match l with
         | [] => []
         | c :: l' => walk_entry (root ++ [n]) (rel ++ [n]) c ++ go l'
         end) cs
  end.

Definition os_walk_files (fs : fsys) (top : path) : list (path * string) :=
  match lookup fs top with
  | Some (NDir es) => files_of top [] es ++ flat_map (walk_entry top []) es
  | _ => []
  end.

(** ** The packager

    Names read from [package.py] ([ADDON_NAME], [ADDON_VERSION],
    [ADDON_CLIENT_DIR]), the directory of the script, the [hashlib]
    table, the network ([urlopen url] is the body served at [url], [None]
    when the request fails) and the byte encodings of a zip archive, of
    [json.dump] and of text files are parameters. *)

Section Packager.
Variables ADDON_NAME ADDON_VERSION ADDON_CLIENT_DIR : string.
Variable current_dir : path.
Variable hashlib : string -> option hash_algo.
Variable urlopen : string -> option (list byte).
Variable zip_bytes : list (string * list byte) -> list byte.
Variable json_bytes : list file_info -> list byte.
Variable text_bytes : string -> list byte.

Definition checksum_of (zip_path : path) (alg : string) : M string :=
  lift_res (fun fs => calculate_file_checksum hashlib fs zip_path alg 10000).

(** [urllib.request.urlretrieve(src_url, zip_path)] *)
Definition urlretrieve (src_url : string) (zip_path : path) : M unit :=
  match urlopen src_url with
  | None => raise URLError
  | Some body => lift_io (fun fs => write_file fs zip_path body)
  end.

Definition mk_file_info (filename : string) (platform_name : string)
  (platform_info : source_info) : file_info :=
  {| fi_name := ADDON_NAME;
     fi_filename := filename;
     fi_checksum := checksum platform_info;
     fi_checksum_algorithm := checksum_algorithm platform_info;
     fi_platform := platform_name |}.

(** The body of the inner loop of [download_usd_zip] after the record is
    appended. *)
Definition download_usd_entry (downloads_dir : path)
  (platform_info : source_info) : M unit :=
  let src_url := url platform_info in
  let filename := last_segment src_url in
  let zip_path := path_div downloads_dir filename in
  let chk := checksum platform_info in
  let alg := checksum_algorithm platform_info in
  ex <- query (fun fs => path_exists fs zip_path) ;;
  cached <- (if ex then
               file_checksum <- checksum_of zip_path alg ;;
               if String.eqb chk file_checksum then ret true
               else (lift_io (fun fs => remove fs zip_path) ;; ret false)
             else ret false) ;;
  if cached then ret tt else
  urlretrieve src_url zip_path ;;
  file_checksum <- checksum_of zip_path alg ;;
  if negb (String.eqb chk file_checksum)
  then raise (ValueError ("USD zip checksum mismatch: " ++ file_checksum ++ " != " ++ chk))
  else ret tt.

Fixpoint download_loop (downloads_dir : path)
  (entries : list (string * string * source_info))
  (zip_files_info : list file_info) : M (list file_info) :=
  match entries with
  | [] => ret zip_files_info
  | (_, platform_name, platform_info) :: entries' =>
      let filename := last_segment (url platform_info) in
      let zip_files_info' :=
        zip_files_info ++ [mk_file_info filename platform_name platform_info] in
      download_usd_entry downloads_dir platform_info ;;
      download_loop downloads_dir entries' zip_files_info'
  end.

Definition download_usd_zip (downloads_dir : path) : M (list file_info) :=
  download_loop downloads_dir (usd_entries USD_SOURCES) [].

(** [zipfile.ZipFile(zip_path, "w")] creates the archive file; each
    [zipf.write(src, arcname)] reads [src] and the archive on disk then
    holds the members written so far. *)
Definition zip_open (zip_path : path) : M unit :=
  lift_io (fun fs => write_file fs zip_path (zip_bytes [])).

Definition zip_write (zip_path : path) (members : list (string * list byte))
  (item : path * string) : M (list (string * list byte)) :=
  let '(src, arc) := item in
  data <- lift_res (fun fs => read_file fs src) ;;
  let members' := members ++ [(arc, data)] in
  lift_io (fun fs => write_file fs zip_path (zip_bytes members')) ;;
  ret members'.

Fixpoint zip_write_all (zip_path : path) (members : list (string * list byte))
  (items : list (path * string)) : M (list (string * list byte)) :=
  match items with
  | [] => ret members
  | item :: items' =>
      members' <- zip_write zip_path members item ;;
      zip_write_all zip_path members' items'
  end.

Definition safe_copy_file (src_path dst_path : path) : M unit :=
  if list_eq_dec string_dec src_path dst_path then ret tt else
  let dst_dir := dirname dst_path in
  suppress (lift_io (fun fs => makedirs fs dst_dir)) ;;
  lift_io (fun fs => copy2 fs src_path dst_path).

Definition copy_server_content (addon_output_dir : path) : M unit :=
  let server_dirpath := current_dir ++ ["server"] in
  items <- lift_res (fun fs => find_files_in_subdir fs server_dirpath None None) ;;
  let filepaths_to_copy :=
    map (fun '(src_path, dst_subpath) =>
      (src_path, addon_output_dir ++ ["server"] ++ split_slash dst_subpath)) items in
  mapM_ (fun '(src_path, dst_path) => safe_copy_file src_path dst_path)
    filepaths_to_copy.

Definition _fill_client_version : M unit :=
  let version_file := current_dir ++ ["client"; ADDON_CLIENT_DIR; "version.py"] in
  lift_io (fun fs => write_file fs version_file
    (text_bytes (client_version_content ADDON_NAME ADDON_VERSION))).

Definition zip_client_side (addon_package_dir : path) : M unit :=
  let client_dir := current_dir ++ ["client"] in
  is_dir <- query (fun fs => isdir fs client_dir) ;;
  if negb is_dir then ret tt else
  let private_dir := addon_package_dir ++ ["private"] in
  ex <- query (fun fs => path_exists fs private_dir) ;;
  (if ex then ret tt else lift_io (fun fs => makedirs fs private_dir)) ;;
  let zip_filepath := private_dir ++ ["client.zip"] in
  zip_open zip_filepath ;;
  items <- lift_res (fun fs => find_files_in_subdir fs client_dir None None) ;;
  _ <- zip_write_all zip_filepath [] items ;;
  ret tt.

(** The walk of [addon_output_dir] is read up front: the archive is
    written in [output_dir], outside the walked tree. *)
Definition create_server_package (output_dir addon_output_dir : path)
  (addon_version : string) : M unit :=
  let output_path :=
    output_dir ++ [(ADDON_NAME ++ "-" ++ addon_version ++ ".zip")%string] in
  zip_open output_path ;;
  members <- zip_write output_path [] (current_dir ++ ["package.py"], "package.py") ;;
  items <- query (fun fs => os_walk_files fs addon_output_dir) ;;
  _ <- zip_write_all output_path members items ;;
  ret tt.

(** Lines 396-433 of [main]: from the downloads directory to the client
    zip. *)
Definition package_build (output_dir : path) : M unit :=
  let downloads_dir := current_dir ++ ["downloads"] in
  lift_io (fun fs => mkdir_exist_ok fs downloads_dir) ;;
  files_info <- download_usd_zip downloads_dir ;;
  let new_created_version_dir := output_dir ++ [ADDON_NAME; ADDON_VERSION] in
  purge <- query (fun fs => isdir fs new_created_version_dir) ;;
  (if purge then lift_io (fun fs => rmtree fs output_dir) else ret tt) ;;
  _fill_client_version ;;
  let addon_output_root := output_dir ++ [ADDON_NAME] in
  let addon_output_dir := addon_output_root ++ [ADDON_VERSION] in
  ex <- query (fun fs => path_exists fs addon_output_dir) ;;
  (if ex then ret tt else lift_io (fun fs => makedirs fs addon_output_dir)) ;;
  copy_server_content addon_output_dir ;;
  let private_dir := addon_output_dir ++ ["private"] in
  ex' <- query (fun fs => path_exists fs private_dir) ;;
  (if ex' then ret tt else lift_io (fun fs => mkdir_parents fs private_dir)) ;;
  mapM_ (fun fi =>
    lift_io (fun fs => copy2 fs (path_div downloads_dir (fi_filename fi))
                                (path_div private_dir (fi_filename fi)))) files_info ;;
  lift_io (fun fs => write_file fs (private_dir ++ ["files_info.json"])
                                (json_bytes files_info)) ;;
  zip_client_side addon_output_dir.

Definition default_output_dir (output_dir : option path) : path :=
  match output_dir with
  | Some ((_ :: _) as d) => d
  | _ => current_dir ++ ["package"]
  end.

Definition main (output_dir : option path) (skip_zip keep_sources : bool) : M unit :=
  let output_dir := default_output_dir output_dir in
  package_build output_dir ;;
  let addon_output_root := output_dir ++ [ADDON_NAME] in
  let addon_output_dir := addon_output_root ++ [ADDON_VERSION] in
  if negb skip_zip then
    create_server_package output_dir addon_output_dir ADDON_VERSION ;;
    (if negb keep_sources
     then lift_io (fun fs => rmtree fs addon_output_root)
     else ret tt)
  else ret tt.

End Packager.


(** ** A concrete instance of the packager's parameters

    A toy streaming hash whose hex digest is the hashed bytes themselves
    (it satisfies the streaming law of every [hashlib] hash), a network
    that serves for each source URL a body whose digest is the declared
    checksum, and simple encodings of archives, JSON and text. *)
Module Inst.

Definition toy_hash : hash_algo := {|
  h_state := list byte;
  h_init := [];
  h_update := fun st chunk => st ++ chunk;
  h_hexdigest := string_of_list_byte
|}.

Definition hashlib (alg : string) : option hash_algo :=
  if String.eqb alg "sha256" then Some toy_hash else None.

Definition urlopen_good (u : string) : option (list byte) :=
  match find (fun '(_, _, i) => String.eqb (url i) u) (usd_entries USD_SOURCES) with
  | Some (_, _, i) => Some (list_byte_of_string (checksum i))
  | None => None
  end.

Definition urlopen_corrupt (u : string) : option (list byte) :=
  Some (list_byte_of_string "corrupted").

Definition zip_bytes (members : list (string * list byte)) : list byte :=
  flat_map (fun '(arc, data) => list_byte_of_string arc ++ data) members.

Definition json_bytes (infos : list file_info) : list byte :=
  flat_map (fun fi => list_byte_of_string (fi_filename fi)) infos.

Definition ADDON_NAME : string := "ayon_usd".
Definition ADDON_VERSION : string := "0.1.0".
Definition current_dir : path := ["repo"].

Definition repo : entry :=
  EDir "repo"
    [EFile "package.py" (list_byte_of_string "name = 'ayon_usd'");
     EDir "server" [EFile "__init__.py" [x61]; EFile "settings.pyc" []];
     EDir "client" [EDir "ayon_usd" [EFile "__init__.py" [x62]]]].

(** A repository without its [client] directory. *)
Definition repo_no_client : entry :=
  EDir "repo"
    [EFile "package.py" (list_byte_of_string "name = 'ayon_usd'");
     EDir "server" [EFile "__init__.py" [x61]]].

(** An output directory that already holds this version and another one. *)
Definition out_dir : entry :=
  EDir "out" [EDir "ayon_usd" [EDir "0.1.0" [EFile "stale" []];
                               EDir "0.0.9" [EFile "keep_me" [x63]]]].

Definition main_with (urlopen : string -> option (list byte)) (fs : fsys)
  (output_dir : option path) (skip_zip keep_sources : bool) :=
  main ADDON_NAME ADDON_VERSION ADDON_NAME current_dir hashlib urlopen
    zip_bytes json_bytes list_byte_of_string output_dir skip_zip keep_sources fs.

(** A server tree with a cache directory and excluded files. *)
Definition ex_server : list entry :=
  [EFile "a.py" [x61]; EDir "__pycache__" [EFile "a.pyc" []];
   EDir "sub" [EFile "b.py" []; EFile ".hidden" []];
   EFile "c.pyc" []].
Definition ex_fs : fsys := [EDir "server" ex_server].

End Inst.

(** The names of the archives [download_usd_zip] stores. *)
Definition download_filenames : list string :=
  map (fun e => last_segment (url (snd e))) (usd_entries USD_SOURCES).

(** The spec's description of a kept file: a file reached from the
    listing [es] through ancestors [anc], none of them an excluded
    directory, whose own name is not excluded, reported with its path and
    its root-relative path. *)
Definition kept_file (fpats dpats : list regex) (es : list entry) (dp : path)
  (par : list string) (x : path) (r : string) : Prop :=
  exists anc name d,
    lookup_in es (anc ++ [name]) = Some (NFile d) /\
    _value_match_regexes name fpats = false /\
    Forall (fun a => _value_match_regexes a dpats = false) anc /\
    x = dp ++ anc ++ [name] /\
    r = sep_join (par ++ anc ++ [name]).

(** ** [ZipFileLongPaths]

    The subclass of [zipfile.ZipFile] overrides [_extract_member] only;
    every other method, [write] among them, is inherited.  A zip file
    object is given by its methods; [_is_windows] is computed once from
    [platform.system()] when the class is defined. *)
Section ZipLong.
Variables Member Pwd ExtractResult WriteArgs WriteResult : Type.

Record zip_methods : Type := {
  zm_write : WriteArgs -> WriteResult;
  zm_extract_member : Member -> string -> Pwd -> ExtractResult
}.

(** [str.lower] on the ASCII letters. *)
Definition lower_ascii (c : ascii) : ascii :=
  let n := nat_of_ascii c in
  if (65 <=? n)%nat && (n <=? 90)%nat then ascii_of_nat (n + 32) else c.

Fixpoint lower (s : string) : string :=
  match s with
  | EmptyString => EmptyString
  | String c s' => String (lower_ascii c) (lower s')
  end.

Definition _is_windows (system : string) : bool := String.eqb (lower system) "windows".

(** [tpath[2:]] *)
Definition drop2 (s : string) : string := substring 2 (String.length s - 2) s.

Definition long_path (abspath : string -> string) (tpath : string) : string :=
  let tpath := abspath tpath in
  if String.prefix "\\" tpath then "\\?\UNC\" ++ drop2 tpath
  else "\\?\" ++ tpath.

Definition ZipFileLongPaths (system : string) (abspath : string -> string)
  (base : zip_methods) : zip_methods := {|
  zm_write := zm_write base;
  zm_extract_member := fun member tpath pwd =>
    let tpath := if _is_windows system then long_path abspath tpath else tpath in
    zm_extract_member base member tpath pwd
|}.
End ZipLong.
Arguments zm_write {Member Pwd ExtractResult WriteArgs WriteResult}.
Arguments zm_extract_member {Member Pwd ExtractResult WriteArgs WriteResult}.
Arguments ZipFileLongPaths {Member Pwd ExtractResult WriteArgs WriteResult}.

(** ** [initialize_environment]

    The process state is [os.environ] and [sys.path].  [os.path.join] and
    [os.path.pathsep] are the POSIX ones; [get_downloaded_usd_root()]
    (from [utils], which is not part of the sources) is the path [root],
    the same at each of its three calls. *)
Record process : Type := {
  environ : string -> option string;
  sys_path : list string
}.

Definition setenv (p : process) (k v : string) : process := {|
  environ := fun k' => if String.eqb k' k then Some v else environ p k';
  sys_path := sys_path p
|}.

(** [os.path.join(a, b)] *)
Definition join (a b : string) : string :=
  if String.prefix "/" b then b
  else if String.eqb a "" then b
  else if String.eqb (substring (String.length a - 1) 1 a) "/" then a ++ b
  else a ++ "/" ++ b.

(** [f"{x}"] for [x = os.getenv(...)]: [None] is printed as [None]. *)
Definition py_str_opt (o : option string) : string :=
  match o with Some s => s | None => "None" end.

Definition pathsep : string := ":".

Definition initialize_environment (root USD_ADDON_DIR : string) (p : process) : process :=
  let p := {| environ := environ p;
              sys_path := sys_path p ++ [join (join root "lib") "python"] |} in
  let p := setenv p "PXR_PLUGINPATH_NAME" USD_ADDON_DIR in
  let p := setenv p "USD_ASSET_RESOLVER" "" in
  let p := setenv p "TF_DEBUG" "1" in
  let p := setenv p "PYTHONPATH" (join (join root "lib") "python") in
  let p := setenv p "PATH" (py_str_opt (environ p "PATH") ++ pathsep ++ join root "bin") in
  let p := setenv p "AYONLOGGERLOGLVL" "WARN" in
  let p := setenv p "AYONLOGGERSFILELOGGING" "1" in
  let p := setenv p "AYONLOGGERSFILEPOS" ".log" in
  p.

Definition env_keys : list string :=
  ["PXR_PLUGINPATH_NAME"; "USD_ASSET_RESOLVER"; "TF_DEBUG"; "PYTHONPATH"; "PATH";
   "AYONLOGGERLOGLVL"; "AYONLOGGERSFILELOGGING"; "AYONLOGGERSFILEPOS"].

(** ** Frame conditions

    [changes_at fs fs' p]: from [fs] to [fs'] only the tree at [p] changed
    (the directories leading to [p] stay directories).  The monadic
    versions say which paths a step may create, that it keeps the
    directories, and that it leaves the paths outside a region alone. *)
Definition changes_at (fs fs' : fsys) (p : path) : Prop :=
  forall q, (forall r, q <> p ++ r) ->
    lookup_in fs' q = lookup_in fs q \/
    exists r a b, p = q ++ r /\ lookup_in fs' q = Some (NDir a) /\
                  lookup_in fs q = Some (NDir b).

(** The same conditions as relations between the states before and after
    a step, and a step of the monad that relates its start and end states
    by [R], whatever its outcome. *)
Definition absent_rel (T : path -> Prop) (fs fs' : fsys) : Prop :=
  forall q, ~ T q -> lookup_in fs q = None -> lookup_in fs' q = None.
Definition dirs_rel (fs fs' : fsys) : Prop :=
  forall q cs, lookup_in fs q = Some (NDir cs) ->
    exists cs', lookup_in fs' q = Some (NDir cs').
Definition outside_rel (D : path -> Prop) (fs fs' : fsys) : Prop :=
  forall q, ~ D q -> lookup_in fs' q = lookup_in fs q.
Definition file_rel (p : path) (fs fs' : fsys) : Prop :=
  forall d, lookup_in fs p = Some (NFile d) -> exists d', lookup_in fs' p = Some (NFile d').

Definition preserves {A : Type} (R : fsys -> fsys -> Prop) (m : M A) : Prop :=
  forall fs r fs', m fs = (r, fs') -> R fs fs'.
Definition io_preserves (R : fsys -> fsys -> Prop) (f : fsys -> res fsys) : Prop :=
  forall fs fs', f fs = Ok fs' -> R fs fs'.

Definition io_keeps_absent (T : path -> Prop) := io_preserves (absent_rel T).
Definition io_keeps_dirs := io_preserves dirs_rel.
Definition io_keeps_outside (D : path -> Prop) := io_preserves (outside_rel D).

(** The states reachable by a series of [mkdir] calls on prefixes of
    [p], as [Path.mkdir(parents=True)] does. *)
Inductive mkdirs_path (p : path) : fsys -> fsys -> Prop :=
| mp_refl fs : mkdirs_path p fs fs
| mp_step fs fs1 fs2 q :
    (exists r, q ++ r = p) -> mkdir fs q = Ok fs1 -> mkdirs_path p fs1 fs2 ->
    mkdirs_path p fs fs2.

(** [q] is a prefix of [p] or extends it. *)
Definition comparable (q p : path) : Prop := exists r s, q ++ r = p ++ s.

(** [q] leads to the version directory [v] or lies under it. *)
Definition under_or_prefix (v q : path) : Prop :=
  (exists r, q ++ r = v) \/ (exists s, q = v ++ s).

(** The paths a run of [package_build] may create: the downloads
    directory and its archives, the client version file, and the paths
    leading to or under the version directory. *)
Definition T_build (current_dir : path) (name version client_dir : string)
  (output_dir q : path) : Prop :=
  q = current_dir ++ ["downloads"] \/
  (exists f, In f download_filenames /\ q = path_div (current_dir ++ ["downloads"]) f) \/
  q = current_dir ++ ["client"; client_dir; "version.py"] \/
  under_or_prefix (output_dir ++ [name; version]) q.

(** * Proofs *)

Section EntryInd.
Variable P : entry -> Prop.
Hypothesis HF : forall n d, P (EFile n d).
Hypothesis HD : forall n cs, Forall P cs -> P (EDir n cs).

Fixpoint entry_ind' (e : entry) : P e :=
  match e with
  | EFile n d => HF n d
  | EDir n cs =>
      HD n cs
        ((fix go (l : list entry) : Forall P l :=
            match l with
            | [] => Forall_nil P
            | c :: l' => Forall_cons c (entry_ind' c) (go l')
            end) cs)
  end.
End EntryInd.

Lemma wf_entry_dir (n : string) (cs : list entry) :
  wf_entry (EDir n cs) <-> wf_dir cs.
Proof.
  unfold wf_dir; simpl. split; intros [H1 H2]; split; auto; clear H1.
  - induction cs as [|c cs IH]; constructor; destruct H2; auto.
  - induction cs as [|c cs IH]; simpl; auto.
    inversion H2; subst. split; [assumption | apply IH; assumption].
Qed.

Lemma dfs_entry_dir (fpats dpats : list regex) (dp : path) (par : list string)
  (n : string) (cs : list entry) :
  dfs_entry fpats dpats dp par (EDir n cs) =
  if _value_match_regexes n dpats then []
  else flat_map (dfs_entry fpats dpats (dp ++ [n]) (par ++ [n])) cs.
Proof.
  reflexivity.
Qed.

Lemma entry_size_dir (n : string) (cs : list entry) :
  entry_size (EDir n cs) = S (list_sum (map entry_size cs)).
Proof.
  simpl. f_equal. induction cs as [|c cs IH]; simpl; auto.
Qed.

Lemma find_entry_some (n : string) (es : list entry) (e : entry) :
  find_entry n es = Some e -> In e es /\ entry_name e = n.
Proof.
  induction es as [|e' es IH]; simpl; [discriminate|].
  destruct (String.eqb_spec (entry_name e') n) as [Hn|Hn].
  - intros [= <-]. auto.
  - intros H. destruct (IH H). auto.
Qed.

Lemma find_entry_in (es : list entry) (e : entry) :
  NoDup (map entry_name es) -> In e es -> find_entry (entry_name e) es = Some e.
Proof.
  induction es as [|e' es IH]; simpl; [contradiction|].
  intros Hnd Hin. inversion Hnd as [|? ? Hnot Hnd']; subst.
  destruct (String.eqb_spec (entry_name e') (entry_name e)) as [Hn|Hn].
  - destruct Hin as [<-|Hin]; auto.
    exfalso. apply Hnot. rewrite Hn. apply in_map. exact Hin.
  - destruct Hin as [<-|Hin]; [congruence|]. auto.
Qed.

Lemma find_entry_none (n : string) (es : list entry) :
  find_entry n es = None -> ~ In n (map entry_name es).
Proof.
  induction es as [|e' es IH]; simpl; auto.
  destruct (String.eqb_spec (entry_name e') n); [discriminate|].
  intros H [H'|H']; [congruence|]. exact (IH H H').
Qed.

Lemma lookup_in_app (es : list entry) (p q : path) :
  lookup_in es (p ++ q) =
  match lookup_in es p with
  | Some (NDir cs) => lookup_in cs q
  | Some (NFile d) => match q with [] => Some (NFile d) | _ => None end
  | None => None
  end.
Proof.
  revert es. induction p as [|n p IH]; intros es; simpl; auto.
  destruct (find_entry n es) as [[m d|m cs]|]; auto.
  destruct p; simpl; auto.
Qed.

Lemma lookup_app (fs : fsys) (p q : path) (es : list entry) :
  lookup fs p = Some (NDir es) -> lookup fs (p ++ q) = lookup_in es q.
Proof.
  destruct p as [|n p]; simpl; [discriminate|].
  intros H. pose proof (lookup_in_app fs (n :: p) q) as E. simpl in E, H.
  rewrite H in E. exact E.
Qed.

Lemma lookup_child (fs : fsys) (p : path) (es : list entry) (e : entry) :
  lookup fs p = Some (NDir es) -> NoDup (map entry_name es) -> In e es ->
  lookup fs (p ++ [entry_name e]) = Some (node_of e).
Proof.
  intros H Hnd Hin. rewrite (lookup_app _ _ _ _ H). simpl.
  rewrite (find_entry_in _ _ Hnd Hin). destruct e; auto.
Qed.

Lemma queue_size_app (fs : fsys) (a b : list (path * list string)) :
  queue_size fs (a ++ b) = queue_size fs a + queue_size fs b.
Proof. unfold queue_size. rewrite map_app, list_sum_app. reflexivity. Qed.

Lemma queue_size_cons (fs : fsys) (item : path * list string)
  (q : list (path * list string)) :
  queue_size fs (item :: q) =
  match lookup fs (fst item) with
  | Some (NDir es) => S (list_sum (map entry_size es))
  | _ => 0
  end + queue_size fs q.
Proof. reflexivity. Qed.

Lemma in_entry_size (e : entry) (l : list entry) :
  In e l -> entry_size e <= list_sum (map entry_size l).
Proof.
  induction l as [|e' l IH]; simpl; [contradiction|].
  intros [<-|H]; [lia|]. specialize (IH H). lia.
Qed.

Lemma lookup_in_size (es0 es : list entry) (p : path) :
  lookup_in es0 p = Some (NDir es) ->
  list_sum (map entry_size es) <= list_sum (map entry_size es0).
Proof.
  revert es0. induction p as [|n p IH]; intros es0; simpl.
  - intros [= ->]. lia.
  - destruct (find_entry n es0) as [[m d|m cs]|] eqn:Hf.
    + destruct p; discriminate.
    + intros H. apply IH in H. apply find_entry_some in Hf as [Hin _].
      apply in_entry_size in Hin. rewrite entry_size_dir in Hin. lia.
    + discriminate.
Qed.

Section Walker.
Variable fs : fsys.
Variables fpats dpats : list regex.

Lemma scan_names_spec (dp : path) (par : list string) (es : list entry) :
  lookup fs dp = Some (NDir es) -> wf_dir es ->
  forall rest output queue, incl rest es ->
  exists F Q,
    scan_names fs fpats dpats dp par (map entry_name rest) output queue =
      (output ++ F, queue ++ Q) /\
    Permutation (F ++ flat_map (queue_files fs fpats dpats) Q)
                (flat_map (dfs_entry fpats dpats dp par) rest) /\
    Forall (good_item fs) Q /\
    queue_size fs Q <= list_sum (map entry_size rest).
Proof.
  intros Hl [Hnd Hwf]. induction rest as [|e rest IH]; intros output queue Hincl.
  - exists [], []. simpl. rewrite !app_nil_r. repeat split; auto.
  - assert (Hin : In e es) by (apply Hincl; left; reflexivity).
    assert (Hincl' : incl rest es) by (intros x Hx; apply Hincl; right; exact Hx).
    pose proof (lookup_child _ _ _ _ Hl Hnd Hin) as He.
    destruct e as [n d|n cs]; simpl in He.
    + change (map entry_name (EFile n d :: rest)) with (n :: map entry_name rest).
      change (flat_map (dfs_entry fpats dpats dp par) (EFile n d :: rest)) with
        (dfs_entry fpats dpats dp par (EFile n d) ++
         flat_map (dfs_entry fpats dpats dp par) rest).
      change (list_sum (map entry_size (EFile n d :: rest))) with
        (1 + list_sum (map entry_size rest)).
      cbn [scan_names dfs_entry]. unfold isfile at 1. rewrite He.
      destruct (_value_match_regexes n fpats) eqn:Hm; simpl negb; cbv iota.
      * destruct (IH output queue Hincl') as (F & Q & Hs & Hp & Hg & Hq).
        exists F, Q. repeat split; auto; lia.
      * destruct (IH (output ++ [(dp ++ [n], sep_join (par ++ [n]))]) queue Hincl')
          as (F & Q & Hs & Hp & Hg & Hq).
        exists ((dp ++ [n], sep_join (par ++ [n])) :: F), Q.
        rewrite Hs, <- app_assoc.
        repeat split; auto; simpl; first [apply perm_skip; exact Hp | lia].
    + change (map entry_name (EDir n cs :: rest)) with (n :: map entry_name rest).
      change (flat_map (dfs_entry fpats dpats dp par) (EDir n cs :: rest)) with
        (dfs_entry fpats dpats dp par (EDir n cs) ++
         flat_map (dfs_entry fpats dpats dp par) rest).
      change (list_sum (map entry_size (EDir n cs :: rest))) with
        (entry_size (EDir n cs) + list_sum (map entry_size rest)).
      rewrite entry_size_dir, dfs_entry_dir.
      cbn [scan_names]. unfold isfile at 1. rewrite He.
      pose proof (proj1 (Forall_forall _ _) Hwf _ Hin) as Hwe.
      apply wf_entry_dir in Hwe.
      destruct (_value_match_regexes n dpats) eqn:Hm; simpl negb; cbv iota.
      * destruct (IH output queue Hincl') as (F & Q & Hs & Hp & Hg & Hq).
        exists F, Q. repeat split; auto; lia.
      * destruct (IH output (queue ++ [(dp ++ [n], par ++ [n])]) Hincl')
          as (F & Q & Hs & Hp & Hg & Hq).
        exists F, ((dp ++ [n], par ++ [n]) :: Q).
        rewrite Hs, <- app_assoc. repeat split.
        -- change (flat_map (queue_files fs fpats dpats) ((dp ++ [n], par ++ [n]) :: Q))
             with (queue_files fs fpats dpats (dp ++ [n], par ++ [n]) ++
                   flat_map (queue_files fs fpats dpats) Q).
           unfold queue_files at 1. rewrite He.
           eapply perm_trans; [apply Permutation_app_swap_app|].
           apply Permutation_app_head. exact Hp.
        -- constructor; auto. exists cs. split; auto.
        -- rewrite queue_size_cons. simpl fst. rewrite He. lia.
Qed.

Lemma walk_spec : forall fuel queue output,
  Forall (good_item fs) queue -> queue_size fs queue <= fuel ->
  exists output',
    walk fs fpats dpats fuel queue output = Ok output' /\
    Permutation output' (output ++ flat_map (queue_files fs fpats dpats) queue).
Proof.
  induction fuel as [|fuel IH]; intros queue output Hg Hs.
  - destruct queue as [|[dp par] queue].
    + exists output. simpl. rewrite app_nil_r. auto.
    + inversion Hg as [|? ? [es [Hl _]] _]; subst.
      rewrite queue_size_cons in Hs. simpl fst in Hs, Hl. rewrite Hl in Hs. lia.
  - destruct queue as [|[dp par] queue].
    + exists output. simpl. rewrite app_nil_r. auto.
    + inversion Hg as [|? ? [es [Hl Hwf]] Hg']; subst. simpl in Hl.
      simpl. unfold listdir. rewrite Hl.
      destruct (scan_names_spec dp par es Hl Hwf es output queue (incl_refl _))
        as (F & Q & Hsc & Hp & HgQ & HQ).
      rewrite Hsc.
      assert (Hs' : queue_size fs (queue ++ Q) <= fuel).
      { rewrite queue_size_app. rewrite queue_size_cons in Hs. simpl fst in Hs.
        rewrite Hl in Hs. lia. }
      destruct (IH (queue ++ Q) (output ++ F)) as (out' & Hw & Hp');
        [apply Forall_app; auto | exact Hs' |].
      exists out'. split; auto.
      eapply perm_trans; [exact Hp'|].
      rewrite flat_map_app, <- !app_assoc. apply Permutation_app_head.
      cbn [flat_map queue_files].
      eapply perm_trans; [apply Permutation_app_head, Permutation_app_comm|].
      rewrite app_assoc. apply Permutation_app_tail. exact Hp.
Qed.

End Walker.

Lemma lookup_single (es : list entry) (k : string) (p : path) (e : entry) :
  find_entry k es = Some e -> lookup_in es (k :: p) = lookup_in [e] (k :: p).
Proof.
  intros H. simpl. rewrite H. apply find_entry_some in H as [_ Hn].
  rewrite Hn, String.eqb_refl. reflexivity.
Qed.

Lemma lookup_single_name (c : entry) (k : string) (p : path) (nd : node) :
  lookup_in [c] (k :: p) = Some nd -> entry_name c = k.
Proof.
  simpl. destruct (String.eqb_spec (entry_name c) k); [auto | discriminate].
Qed.

Lemma lookup_file_single (n : string) (d : list byte) (p : path) (d' : list byte) :
  lookup_in [EFile n d] p = Some (NFile d') -> p = [n] /\ d' = d.
Proof.
  destruct p as [|a p]; simpl; [discriminate|].
  destruct (String.eqb_spec n a); [|discriminate]. subst.
  destruct p; [intros [= ->]; auto | discriminate].
Qed.

Lemma lookup_dir_single (n : string) (cs : list entry) (a : string) (p : path)
  (nd : node) :
  lookup_in [EDir n cs] (a :: p) = Some nd -> a = n /\ lookup_in cs p = Some nd.
Proof.
  simpl. destruct (String.eqb_spec n a); [subst; auto | discriminate].
Qed.

Lemma snoc_cons {A : Type} (l : list A) (x : A) :
  exists k rest, l ++ [x] = k :: rest.
Proof. destruct l as [|k rest]; [exists x, [] | exists k, (rest ++ [x])]; auto. Qed.

Section DfsChar.
Variables fpats dpats : list regex.

Lemma kept_file_list (es : list entry) :
  NoDup (map entry_name es) ->
  Forall (fun c => forall dp par x r,
    In (x, r) (dfs_entry fpats dpats dp par c) <->
    kept_file fpats dpats [c] dp par x r) es ->
  forall dp par x r,
    In (x, r) (flat_map (dfs_entry fpats dpats dp par) es) <->
    kept_file fpats dpats es dp par x r.
Proof.
  intros Hnd Hall dp par x r. rewrite in_flat_map. split.
  - intros (c & Hin & Hx).
    destruct (proj1 (proj1 (Forall_forall _ _) Hall c Hin dp par x r) Hx)
      as (anc & name & d & Hl & Hf & Ha & Hxe & Hr).
    exists anc, name, d. repeat split; auto.
    destruct (snoc_cons anc name) as (k & rest & Hk). rewrite Hk in Hl |- *.
    pose proof (lookup_single_name _ _ _ _ Hl) as Hn.
    rewrite (lookup_single es k rest c); auto.
    rewrite <- Hn. apply find_entry_in; auto.
  - intros (anc & name & d & Hl & Hf & Ha & Hxe & Hr).
    destruct (snoc_cons anc name) as (k & rest & Hk). rewrite Hk in Hl.
    destruct (find_entry k es) as [c|] eqn:Hfe.
    + exists c. pose proof (proj1 (find_entry_some _ _ _ Hfe)) as Hin.
      split; auto.
      apply (proj1 (Forall_forall _ _) Hall c Hin).
      exists anc, name, d. repeat split; auto.
      rewrite Hk, <- (lookup_single es k rest c Hfe). exact Hl.
    + simpl in Hl. rewrite Hfe in Hl. discriminate.
Qed.

Lemma dfs_entry_char : forall e, wf_entry e ->
  forall dp par x r,
    In (x, r) (dfs_entry fpats dpats dp par e) <->
    kept_file fpats dpats [e] dp par x r.
Proof.
  intros e. induction e as [n d | n cs IHcs] using entry_ind'; intros Hwf dp par x r.
  - simpl dfs_entry. destruct (_value_match_regexes n fpats) eqn:Hm; split.
    + intros [].
    + intros (anc & name & d' & Hl & Hf & _ & _ & _).
      apply lookup_file_single in Hl as [Hp _].
      apply app_eq_unit in Hp as [[_ [= ->]]|[_ Hc]]; [congruence | discriminate].
    + intros [[= <- <-]|[]]. exists [], n, d. simpl.
      rewrite String.eqb_refl. repeat split; auto.
    + intros (anc & name & d' & Hl & Hf & Ha & -> & ->).
      apply lookup_file_single in Hl as [Hp _].
      apply app_eq_unit in Hp as [[-> [= ->]]|[_ Hc]]; [left; auto | discriminate].
  - apply wf_entry_dir in Hwf as [Hnd Hall].
    assert (IH : forall dp' par' x' r',
      In (x', r') (flat_map (dfs_entry fpats dpats dp' par') cs) <->
      kept_file fpats dpats cs dp' par' x' r').
    { apply kept_file_list; auto.
      rewrite Forall_forall in IHcs, Hall |- *. intros c Hc. apply IHcs; auto. }
    rewrite dfs_entry_dir. destruct (_value_match_regexes n dpats) eqn:Hm; split.
    + intros [].
    + intros (anc & name & d & Hl & Hf & Ha & _ & _).
      destruct anc as [|a anc].
      * apply lookup_dir_single in Hl as [_ Hl]. discriminate.
      * apply lookup_dir_single in Hl as [-> _]. inversion Ha; congruence.
    + intros Hin. apply IH in Hin as (anc & name & d & Hl & Hf & Ha & -> & ->).
      exists (n :: anc), name, d. repeat split; auto.
      * simpl. rewrite String.eqb_refl. exact Hl.
      * rewrite <- app_assoc. reflexivity.
      * rewrite <- app_assoc. reflexivity.
    + intros (anc & name & d & Hl & Hf & Ha & -> & ->).
      destruct anc as [|a anc].
      * apply lookup_dir_single in Hl as [_ Hl]. discriminate.
      * apply lookup_dir_single in Hl as [-> Hl]. inversion Ha; subst.
        apply IH. exists anc, name, d. repeat split; auto.
        -- rewrite <- app_assoc. reflexivity.
        -- rewrite <- app_assoc. reflexivity.
Qed.

Lemma dfs_list_char (es : list entry) : wf_dir es ->
  forall dp par x r,
    In (x, r) (flat_map (dfs_entry fpats dpats dp par) es) <->
    kept_file fpats dpats es dp par x r.
Proof.
  intros [Hnd Hall]. apply kept_file_list; auto.
  rewrite Forall_forall in Hall |- *. intros c Hc. apply dfs_entry_char; auto.
Qed.

Lemma dfs_entry_prefix (e : entry) (dp : path) (par : list string) x r :
  wf_entry e -> In (x, r) (dfs_entry fpats dpats dp par e) ->
  exists rest, x = dp ++ entry_name e :: rest.
Proof.
  intros Hwf Hin. apply dfs_entry_char in Hin as (anc & name & d & Hl & _ & _ & -> & _);
    auto.
  destruct (snoc_cons anc name) as (k & rest & Hk). rewrite Hk in Hl |- *.
  apply lookup_single_name in Hl. rewrite Hl. eauto.
Qed.

Lemma dfs_flat_nodup (es : list entry) (dp : path) (par : list string) :
  NoDup (map entry_name es) -> Forall wf_entry es ->
  Forall (fun e => NoDup (dfs_entry fpats dpats dp par e)) es ->
  NoDup (flat_map (dfs_entry fpats dpats dp par) es).
Proof.
  induction es as [|e es IH]; simpl; intros Hnd Hwf Hall; [constructor|].
  inversion Hnd as [|? ? Hnot Hnd']; inversion Hwf; inversion Hall; subst.
  apply NoDup_app; auto.
  intros [x r] H1 H2. apply in_flat_map in H2 as (c & Hc & H2).
  destruct (dfs_entry_prefix e dp par x r) as (r1 & Hr1); auto.
  destruct (dfs_entry_prefix c dp par x r) as (r2 & Hr2);
    [rewrite Forall_forall in *; auto | auto |].
  rewrite Hr1 in Hr2. apply app_inv_head in Hr2. injection Hr2 as Hn _.
  apply Hnot. rewrite Hn. apply in_map. exact Hc.
Qed.

Lemma dfs_entry_nodup : forall e, wf_entry e ->
  forall dp par, NoDup (dfs_entry fpats dpats dp par e).
Proof.
  intros e. induction e as [n d | n cs IHcs] using entry_ind'; intros Hwf dp par.
  - simpl. destruct (_value_match_regexes n fpats); repeat constructor; auto.
  - rewrite dfs_entry_dir. apply wf_entry_dir in Hwf as [Hnd Hall].
    destruct (_value_match_regexes n dpats); [constructor|].
    apply dfs_flat_nodup; auto.
    rewrite Forall_forall in IHcs, Hall |- *. intros c Hc. apply IHcs; auto.
Qed.

End DfsChar.

(** ** C1: the walker returns exactly the kept files, each once *)

(** C1. For every root directory of a file system whose directories have
    distinct entry names, and every two lists of ignore patterns,
    [find_files_in_subdir] succeeds and returns a list without repetition
    whose elements are exactly the pairs (path, root-relative path) of the
    files below the root whose own name matches no file pattern and whose
    ancestor directories below the root match no directory pattern;
    patterns are tested against single name components. *)
Theorem find_files_in_subdir_exact (fs : fsys) (src_path : path)
  (fpats dpats : list regex) (es : list entry) :
  lookup fs src_path = Some (NDir es) -> wf_dir es ->
  exists output,
    find_files_in_subdir fs src_path (Some fpats) (Some dpats) = Ok output /\
    NoDup output /\
    (forall x r, In (x, r) output <->
       exists anc name d,
         lookup fs (src_path ++ anc ++ [name]) = Some (NFile d) /\
         _value_match_regexes name fpats = false /\
         Forall (fun a => _value_match_regexes a dpats = false) anc /\
         x = src_path ++ anc ++ [name] /\
         r = sep_join (anc ++ [name])).
Proof.
  intros Hl Hwf.
  destruct (walk_spec fs fpats dpats (S (fs_size fs)) [(src_path, [])] [])
    as (out & Hw & Hp).
  - constructor; [exists es; auto | constructor].
  - rewrite queue_size_cons. simpl fst. rewrite Hl.
    pose proof (lookup_in_size fs es src_path) as Hs.
    destruct src_path; [discriminate|]. specialize (Hs Hl).
    change (queue_size fs []) with 0. unfold fs_size. lia.
  - exists out. split; [exact Hw|].
    simpl in Hp. unfold queue_files in Hp. rewrite Hl, app_nil_r in Hp.
    split.
    + eapply Permutation_NoDup; [symmetry; exact Hp|].
      destruct Hwf as [Hnd Hall]. apply dfs_flat_nodup; auto.
      rewrite Forall_forall in Hall |- *. intros c Hc.
      apply dfs_entry_nodup; auto.
    + intros x r. split.
      * intros Hin. apply (Permutation_in _ Hp) in Hin.
        apply (dfs_list_char fpats dpats es Hwf) in Hin
          as (anc & name & d & Hl' & Hf & Ha & Hx & Hr).
        exists anc, name, d. rewrite (lookup_app _ _ _ _ Hl). auto.
      * intros (anc & name & d & Hl' & Hf & Ha & Hx & Hr).
        apply (Permutation_in _ (Permutation_sym Hp)).
        apply (dfs_list_char fpats dpats es Hwf).
        exists anc, name, d. rewrite (lookup_app _ _ _ _ Hl) in Hl'. auto.
Qed.

(** Instance of [find_files_in_subdir_exact] on [Inst.ex_fs] with the
    packager's own ignore patterns. *)
Lemma find_files_in_subdir_exact_witness :
  lookup Inst.ex_fs ["server"] = Some (NDir Inst.ex_server) /\
  wf_dir Inst.ex_server /\
  exists output,
    find_files_in_subdir Inst.ex_fs ["server"]
      (Some IGNORE_FILE_PATTERNS) (Some IGNORE_DIR_PATTERNS) = Ok output /\
    NoDup output.
Proof.
  assert (Hw : wf_dir Inst.ex_server).
  { unfold wf_dir, Inst.ex_server. simpl. split.
    - repeat constructor; simpl; intuition discriminate.
    - repeat constructor; simpl; intuition discriminate. }
  split; [reflexivity|]. split; [exact Hw|].
  destruct (find_files_in_subdir_exact Inst.ex_fs ["server"]
              IGNORE_FILE_PATTERNS IGNORE_DIR_PATTERNS Inst.ex_server
              eq_refl Hw) as (out & H1 & H2 & _).
  exists out. split; assumption.
Defined.

(** ** Frame lemmas for the file-system primitives *)

Lemma find_set_same (n : string) (e : entry) (es : list entry) :
  entry_name e = n -> find_entry n (set_entry n e es) = Some e.
Proof.
  intros He. induction es as [|e' es IH]; simpl.
  - rewrite He, String.eqb_refl. reflexivity.
  - destruct (String.eqb_spec (entry_name e') n); simpl.
    + rewrite He, String.eqb_refl. reflexivity.
    + apply String.eqb_neq in n0. rewrite n0. exact IH.
Qed.

Lemma find_set_other (n m : string) (e : entry) (es : list entry) :
  entry_name e = n -> m <> n -> find_entry m (set_entry n e es) = find_entry m es.
Proof.
  intros He Hmn. induction es as [|e' es IH]; simpl.
  - rewrite He. apply String.eqb_neq in Hmn. rewrite String.eqb_sym, Hmn.
    reflexivity.
  - destruct (String.eqb_spec (entry_name e') n) as [E|E]; simpl.
    + rewrite He. subst n.
      destruct (String.eqb_spec (entry_name e') m); [congruence|].
      apply String.eqb_neq in Hmn. rewrite String.eqb_sym, Hmn. reflexivity.
    + destruct (String.eqb (entry_name e') m); auto.
Qed.

Lemma find_remove_same (n : string) (es : list entry) :
  find_entry n (remove_entry n es) = None.
Proof.
  induction es as [|e' es IH]; simpl; auto.
  destruct (String.eqb_spec (entry_name e') n); simpl; auto.
  apply String.eqb_neq in n0. rewrite n0. exact IH.
Qed.

Lemma find_remove_other (n m : string) (es : list entry) :
  m <> n -> find_entry m (remove_entry n es) = find_entry m es.
Proof.
  intros Hmn. induction es as [|e' es IH]; simpl; auto.
  destruct (String.eqb_spec (entry_name e') n) as [E|E]; simpl.
  - subst n. destruct (String.eqb_spec (entry_name e') m); [congruence|auto].
  - destruct (String.eqb (entry_name e') m); auto.
Qed.

(** The path [p] extends [q], or not. *)
Lemma prefix_dec (q p : path) : (exists r, p = q ++ r) \/ (forall r, p <> q ++ r).
Proof.
  revert p. induction q as [|a q IH]; intros p.
  - left. exists p. reflexivity.
  - destruct p as [|b p]; [right; intros r; discriminate|].
    destruct (string_dec b a) as [->|Hab].
    + destruct (IH p) as [[r ->]|Hn]; [left; exists r; reflexivity|].
      right. intros r [= E]. exact (Hn r E).
    + right. intros r [= E _]. exact (Hab E).
Qed.

(** [modify_in] changes the listing of the directory at [p]: below [p] the
    tree is the new listing, the directories on the way to [p] stay
    directories, and every other path is unchanged. *)
Lemma modify_in_spec (es : list entry) (p : path)
  (g : list entry -> res (list entry)) (es' : list entry) :
  modify_in es p g = Ok es' ->
  exists cs cs',
    lookup_in es p = Some (NDir cs) /\ g cs = Ok cs' /\
    (forall r, lookup_in es' (p ++ r) = lookup_in cs' r) /\
    (forall q, (forall r, q <> p ++ r) ->
       lookup_in es' q = lookup_in es q \/
       exists r a b, p = q ++ r /\ lookup_in es' q = Some (NDir a) /\
                     lookup_in es q = Some (NDir b)).
Proof.
  revert es es'. induction p as [|n p IH]; intros es es' H; simpl in H.
  - exists es, es'. repeat split; auto.
    intros q Hq. exfalso. exact (Hq q eq_refl).
  - destruct (find_entry n es) as [[m d|m cs0]|] eqn:Hf; try discriminate.
    destruct (modify_in cs0 p g) as [cs1|e] eqn:Hm; [|discriminate].
    injection H as <-.
    destruct (IH _ _ Hm) as (cs & cs' & Hl & Hg & Hin & Hout).
    assert (Hs : find_entry n (set_entry n (EDir n cs1) es) = Some (EDir n cs1))
      by (apply find_set_same; reflexivity).
    exists cs, cs'. split; [simpl; rewrite Hf; exact Hl|]. split; [exact Hg|].
    split.
    + intros r. simpl. rewrite Hs. apply Hin.
    + intros [|a q] Hq.
      * right. exists (n :: p), (set_entry n (EDir n cs1) es), es. auto.
      * destruct (string_dec a n) as [->|Han].
        -- simpl. rewrite Hs, Hf.
           destruct (Hout q) as [E|(r & a' & b & Hr & Ha & Hb)].
           ++ intros r E. apply (Hq r). rewrite E. reflexivity.
           ++ left. exact E.
           ++ right. exists r, a', b. rewrite Hr. auto.
        -- left. simpl. rewrite (find_set_other n a); auto.
Qed.

Lemma split_last_spec {A : Type} (l : list A) :
  match split_last l with
  | Some (h, t) => l = h ++ [t]
  | None => l = []
  end.
Proof.
  induction l as [|x l IH]; simpl; auto.
  destruct l as [|y l]; auto.
  destruct (split_last (y :: l)) as [[h t]|]; [|discriminate].
  rewrite IH. reflexivity.
Qed.

Lemma split_last_app {A : Type} (l : list A) (x : A) :
  split_last (l ++ [x]) = Some (l, x).
Proof.
  induction l as [|y l IH]; simpl; auto.
  destruct (l ++ [x]) as [|z l'] eqn:E; [destruct l; discriminate|].
  rewrite IH. reflexivity.
Qed.

Lemma at_parent_spec (fs : fsys) (p : path)
  (g : string -> list entry -> res (list entry)) (fs' : fsys) :
  (forall n cs cs', g n cs = Ok cs' ->
     forall m, m <> n -> find_entry m cs' = find_entry m cs) ->
  at_parent fs p g = Ok fs' ->
  exists parent n cs cs',
    p = parent ++ [n] /\ lookup_in fs parent = Some (NDir cs) /\
    g n cs = Ok cs' /\
    (forall r, lookup_in fs' (p ++ r) = lookup_in cs' (n :: r)) /\
    changes_at fs fs' p.
Proof.
  intros Hloc. unfold at_parent. pose proof (split_last_spec p) as Hp.
  destruct (split_last p) as [[parent n]|]; [|discriminate].
  intros H. destruct (modify_in_spec _ _ _ _ H) as (cs & cs' & Hl & Hg & Hin & Hout).
  exists parent, n, cs, cs'. subst p. repeat split; auto.
  - intros r. rewrite <- app_assoc. apply Hin.
  - intros q Hq. destruct (prefix_dec parent q) as [[r ->]|Hn].
    + rewrite Hin, lookup_in_app, Hl. destruct r as [|m r].
      * right. exists [n], cs', cs. rewrite app_nil_r. auto.
      * destruct (string_dec m n) as [->|Hmn].
        -- exfalso. apply (Hq r). rewrite <- app_assoc. reflexivity.
        -- left. simpl. rewrite (Hloc _ _ _ Hg m Hmn). reflexivity.
    + destruct (Hout q Hn) as [E|(r & a & b & Hr & Ha & Hb)]; [left; exact E|].
      right. exists (r ++ [n]), a, b. rewrite Hr, app_assoc. auto.
Qed.

Lemma changes_at_absent (fs fs' : fsys) (p q : path) :
  changes_at fs fs' p -> (forall r, q <> p ++ r) ->
  lookup_in fs q = None -> lookup_in fs' q = None.
Proof.
  intros Hc Hq Hn. destruct (Hc q Hq) as [E|(r & a & b & _ & _ & Hb)]; congruence.
Qed.

Lemma changes_at_dir (fs fs' : fsys) (p q : path) (cs : list entry) :
  changes_at fs fs' p -> (forall r, q <> p ++ r) ->
  lookup_in fs q = Some (NDir cs) -> exists cs', lookup_in fs' q = Some (NDir cs').
Proof.
  intros Hc Hq Hd. destruct (Hc q Hq) as [E|(r & a & b & _ & Ha & _)]; eauto.
  rewrite E. eauto.
Qed.

Lemma changes_at_eq (fs fs' : fsys) (p q : path) :
  changes_at fs fs' p -> ~ comparable q p -> lookup_in fs' q = lookup_in fs q.
Proof.
  intros Hc Hq. destruct (Hc q) as [E|(r & a & b & Hr & _ & _)]; auto.
  - intros r ->. apply Hq. exists [], r. apply app_nil_r.
  - exfalso. apply Hq. exists r, []. rewrite app_nil_r. auto.
Qed.

Lemma comparable_ext (q p : path) (x : list string) :
  comparable q (p ++ x) -> comparable q p.
Proof. intros (r & s & E). exists r, (x ++ s). rewrite E, app_assoc. reflexivity. Qed.

Lemma write_file_spec (fs : fsys) (p : path) (d : list byte) (fs' : fsys) :
  write_file fs p d = Ok fs' ->
  changes_at fs fs' p /\
  (forall r, lookup_in fs' (p ++ r) = match r with [] => Some (NFile d) | _ => None end) /\
  (forall r cs, lookup_in fs (p ++ r) <> Some (NDir cs)).
Proof.
  intros H. unfold write_file in H.
  apply at_parent_spec in H
    as (parent & n & cs & cs' & -> & Hl & Hg & Hin & Hc).
  - split; [exact Hc|]. split.
    + intros r. rewrite Hin.
      destruct (find_entry n cs) as [[]|]; inversion Hg; subst;
        simpl; rewrite find_set_same by reflexivity; destruct r; reflexivity.
    + intros r c. rewrite <- app_assoc, lookup_in_app, Hl. simpl.
      destruct (find_entry n cs) as [[m d'|m cs0]|]; try discriminate.
      destruct r; discriminate.
  - intros n cs cs' Hg m Hm.
    destruct (find_entry n cs) as [[]|]; inversion Hg; subst;
      apply find_set_other; auto.
Qed.

Lemma mkdir_spec (fs : fsys) (p : path) (fs' : fsys) :
  mkdir fs p = Ok fs' ->
  changes_at fs fs' p /\
  (forall r, lookup_in fs' (p ++ r) = match r with [] => Some (NDir []) | _ => None end) /\
  (forall r, lookup_in fs (p ++ r) = None).
Proof.
  intros H. unfold mkdir in H.
  apply at_parent_spec in H
    as (parent & n & cs & cs' & -> & Hl & Hg & Hin & Hc).
  - split; [exact Hc|]. split.
    + intros r. rewrite Hin.
      destruct (find_entry n cs) as [[]|]; inversion Hg; subst.
      simpl. rewrite find_set_same by reflexivity. destruct r; reflexivity.
    + intros r. rewrite <- app_assoc, lookup_in_app, Hl. simpl.
      destruct (find_entry n cs); [discriminate|reflexivity].
  - intros n cs cs' Hg m Hm.
    destruct (find_entry n cs) as [[]|]; inversion Hg; subst.
    apply find_set_other; auto.
Qed.

Lemma remove_spec (fs : fsys) (p : path) (fs' : fsys) :
  remove fs p = Ok fs' ->
  changes_at fs fs' p /\ (forall r, lookup_in fs' (p ++ r) = None) /\
  (forall r cs, lookup_in fs (p ++ r) <> Some (NDir cs)).
Proof.
  intros H. unfold remove in H.
  apply at_parent_spec in H
    as (parent & n & cs & cs' & -> & Hl & Hg & Hin & Hc).
  - split; [exact Hc|]. split.
    + intros r. rewrite Hin.
      destruct (find_entry n cs) as [[]|]; inversion Hg; subst.
      simpl. rewrite find_remove_same. reflexivity.
    + intros r c. rewrite <- app_assoc, lookup_in_app, Hl. simpl.
      destruct (find_entry n cs) as [[m d'|m cs0]|]; try discriminate.
      destruct r; discriminate.
  - intros n cs cs' Hg m Hm.
    destruct (find_entry n cs) as [[]|]; inversion Hg; subst.
    apply find_remove_other; auto.
Qed.

Lemma rmtree_spec (fs : fsys) (p : path) (fs' : fsys) :
  rmtree fs p = Ok fs' ->
  changes_at fs fs' p /\ (forall r, lookup_in fs' (p ++ r) = None).
Proof.
  intros H. unfold rmtree in H.
  apply at_parent_spec in H
    as (parent & n & cs & cs' & -> & Hl & Hg & Hin & Hc).
  - split; [exact Hc|].
    intros r. rewrite Hin.
    destruct (find_entry n cs) as [[]|]; inversion Hg; subst.
    simpl. rewrite find_remove_same. reflexivity.
  - intros n cs cs' Hg m Hm.
    destruct (find_entry n cs) as [[]|]; inversion Hg; subst.
    apply find_remove_other; auto.
Qed.

Lemma absent_of_spec (fs fs' : fsys) (p q : path) :
  changes_at fs fs' p ->
  (forall r, r <> [] -> lookup_in fs' (p ++ r) = None) -> q <> p ->
  lookup_in fs q = None -> lookup_in fs' q = None.
Proof.
  intros Hc He Hq Hn. destruct (prefix_dec p q) as [[[|x r] ->]|Hp].
  - rewrite app_nil_r in Hq. congruence.
  - apply He. discriminate.
  - exact (changes_at_absent _ _ _ _ Hc Hp Hn).
Qed.

Lemma dirs_of_spec (fs fs' : fsys) (p q : path) (cs : list entry) :
  changes_at fs fs' p -> (forall r cs, lookup_in fs (p ++ r) <> Some (NDir cs)) ->
  lookup_in fs q = Some (NDir cs) -> exists cs', lookup_in fs' q = Some (NDir cs').
Proof.
  intros Hc Hpre Hd. destruct (prefix_dec p q) as [[r ->]|Hp].
  - exfalso. exact (Hpre r cs Hd).
  - exact (changes_at_dir _ _ _ _ _ Hc Hp Hd).
Qed.

Lemma write_file_io (p : path) (d : list byte) :
  io_keeps_absent (fun q => q = p) (fun fs => write_file fs p d) /\
  io_keeps_dirs (fun fs => write_file fs p d) /\
  io_keeps_outside (fun q => comparable q p) (fun fs => write_file fs p d).
Proof.
  repeat split; intros fs fs' H; apply write_file_spec in H as (Hc & He & Hpre).
  - intros q Hq. apply (absent_of_spec _ _ p); auto.
    intros [|x r] Hr; [congruence|]. rewrite He. reflexivity.
  - intros q cs. apply (dirs_of_spec _ _ p); auto.
  - intros q Hq. exact (changes_at_eq _ _ _ _ Hc Hq).
Qed.

Lemma mkdir_io (p : path) :
  io_keeps_absent (fun q => q = p) (fun fs => mkdir fs p) /\
  io_keeps_dirs (fun fs => mkdir fs p) /\
  io_keeps_outside (fun q => comparable q p) (fun fs => mkdir fs p).
Proof.
  repeat split; intros fs fs' H; apply mkdir_spec in H as (Hc & He & Hpre).
  - intros q Hq. apply (absent_of_spec _ _ p); auto.
    intros [|x r] Hr; [congruence|]. rewrite He. reflexivity.
  - intros q cs. apply (dirs_of_spec _ _ p); auto.
    intros r c. rewrite Hpre. discriminate.
  - intros q Hq. exact (changes_at_eq _ _ _ _ Hc Hq).
Qed.

Lemma remove_io (p : path) :
  io_keeps_absent (fun _ => False) (fun fs => remove fs p) /\
  io_keeps_dirs (fun fs => remove fs p) /\
  io_keeps_outside (fun q => comparable q p) (fun fs => remove fs p).
Proof.
  repeat split; intros fs fs' H; apply remove_spec in H as (Hc & He & Hpre).
  - intros q _ Hn. destruct (prefix_dec p q) as [[r ->]|Hp]; auto.
    exact (changes_at_absent _ _ _ _ Hc Hp Hn).
  - intros q cs. apply (dirs_of_spec _ _ p); auto.
  - intros q Hq. exact (changes_at_eq _ _ _ _ Hc Hq).
Qed.

Lemma rmtree_io (p : path) :
  io_keeps_absent (fun _ => False) (fun fs => rmtree fs p) /\
  io_keeps_outside (fun q => comparable q p) (fun fs => rmtree fs p).
Proof.
  split; intros fs fs' H; apply rmtree_spec in H as (Hc & He).
  - intros q _ Hn. destruct (prefix_dec p q) as [[r ->]|Hp]; auto.
    exact (changes_at_absent _ _ _ _ Hc Hp Hn).
  - intros q Hq. exact (changes_at_eq _ _ _ _ Hc Hq).
Qed.

Lemma io_absent_weaken (T T' : path -> Prop) (f : fsys -> res fsys) :
  io_keeps_absent T f -> (forall q, T q -> T' q) -> io_keeps_absent T' f.
Proof. intros H HT fs fs' Hf q Hq. apply (H fs fs' Hf q). auto. Qed.

Lemma io_outside_weaken (D D' : path -> Prop) (f : fsys -> res fsys) :
  io_keeps_outside D f -> (forall q, D q -> D' q) -> io_keeps_outside D' f.
Proof. intros H HD fs fs' Hf q Hq. apply (H fs fs' Hf q). auto. Qed.

Lemma mkdir_exist_ok_io (p : path) :
  io_keeps_absent (fun q => q = p) (fun fs => mkdir_exist_ok fs p) /\
  io_keeps_dirs (fun fs => mkdir_exist_ok fs p) /\
  io_keeps_outside (fun q => comparable q p) (fun fs => mkdir_exist_ok fs p).
Proof.
  destruct (mkdir_io p) as (Ha & Hd & Ho). unfold mkdir_exist_ok.
  repeat split; intros fs fs' H;
    (destruct (mkdir fs p) as [fs1|e] eqn:Hm;
     [injection H as <-|destruct (isdir fs p); [injection H as <-|discriminate]]).
  - exact (Ha _ _ Hm).
  - intros q _ Hn. exact Hn.
  - exact (Hd _ _ Hm).
  - intros q cs Hq. eauto.
  - exact (Ho _ _ Hm).
  - intros q _. reflexivity.
Qed.

Lemma makedirs_go_io (fuel : nat) : forall p,
  io_keeps_absent (fun q => exists r, q ++ r = p) (fun fs => makedirs_go fuel fs p) /\
  io_keeps_dirs (fun fs => makedirs_go fuel fs p).
Proof.
  induction fuel as [|f IH]; intros p.
  - destruct (mkdir_io p) as (Ha & Hd & _). split.
    + eapply io_absent_weaken; [exact Ha|]. intros q ->. exists []. apply app_nil_r.
    + exact Hd.
  - destruct (mkdir_io p) as (Ha & Hd & _).
    assert (Ha' : io_keeps_absent (fun q => exists r, q ++ r = p) (fun fs => mkdir fs p)).
    { eapply io_absent_weaken; [exact Ha|]. intros q ->. exists []. apply app_nil_r. }
    simpl. pose proof (split_last_spec p) as Hsp.
    destruct (split_last p) as [[head t]|]; [|split; assumption].
    destruct (IH head) as [IHa IHd].
    assert (Hstep : forall fs fs1,
      (if negb (match head with [] => true | _ => false end) &&
          negb (path_exists fs head)
       then match makedirs_go f fs head with
            | Ok fs' => Ok fs'
            | Exn FileExistsError => Ok fs
            | Exn e => Exn e
            end
       else Ok fs) = Ok fs1 ->
      fs1 = fs \/ makedirs_go f fs head = Ok fs1).
    { intros fs fs1 H.
      destruct (_ && _); [|injection H as <-; auto].
      destruct (makedirs_go f fs head) as [fs'|[]]; try discriminate;
        injection H as <-; auto. }
    split.
    + intros fs fs' H q Hq Hn.
      match type of H with
      | match ?x with Ok _ => _ | Exn _ => _ end = _ =>
          destruct x as [fs1|e] eqn:Hr; [|discriminate]
      end.
      apply (Ha' fs1 fs' H q Hq).
      destruct (Hstep fs fs1 Hr) as [->|Hm]; auto.
      apply (IHa fs fs1 Hm q); auto.
      intros (r & Hqr). apply Hq. exists (r ++ [t]). rewrite Hsp, <- Hqr, app_assoc.
      reflexivity.
    + intros fs fs' H q cs Hq.
      match type of H with
      | match ?x with Ok _ => _ | Exn _ => _ end = _ =>
          destruct x as [fs1|e] eqn:Hr; [|discriminate]
      end.
      destruct (Hstep fs fs1 Hr) as [->|Hm].
      * exact (Hd _ _ H q cs Hq).
      * destruct (IHd fs fs1 Hm q cs Hq) as [cs1 Hq1]. exact (Hd _ _ H q cs1 Hq1).
Qed.

Lemma mkdirs_path_trans (p : path) (fs fs1 fs2 : fsys) :
  mkdirs_path p fs fs1 -> mkdirs_path p fs1 fs2 -> mkdirs_path p fs fs2.
Proof.
  induction 1 as [|fs fs' fs'' q Hq Hm _ IH]; auto.
  intros H. exact (mp_step _ _ _ _ q Hq Hm (IH H)).
Qed.

Lemma mkdirs_path_weaken (p p' : path) (fs fs' : fsys) :
  mkdirs_path p fs fs' -> (exists r, p ++ r = p') -> mkdirs_path p' fs fs'.
Proof.
  intros H [r Hr]. induction H as [|fs fs1 fs2 q [r' Hq] Hm _ IH]; [constructor|].
  apply (mp_step _ _ fs1 _ q); auto. exists (r' ++ r). rewrite app_assoc, Hq. exact Hr.
Qed.

Lemma mkdirs_path_last (p : path) (fs fs' : fsys) :
  mkdir fs p = Ok fs' -> mkdirs_path p fs fs'.
Proof.
  intros H. apply (mp_step _ _ fs' _ p); [exists []; apply app_nil_r|exact H|constructor].
Qed.

Lemma mkdir_exist_ok_path (p : path) (fs fs' : fsys) :
  mkdir_exist_ok fs p = Ok fs' -> mkdirs_path p fs fs'.
Proof.
  unfold mkdir_exist_ok. destruct (mkdir fs p) as [fs1|e] eqn:Hm.
  - intros [= <-]. apply mkdirs_path_last. exact Hm.
  - destruct (isdir fs p); [intros [= <-]; constructor|discriminate].
Qed.

Lemma mkdir_parents_go_path (fuel : nat) : forall eo fs p fs',
  mkdir_parents_go fuel eo fs p = Ok fs' -> mkdirs_path p fs fs'.
Proof.
  induction fuel as [|f IH]; intros eo fs p fs' H; simpl in H;
    (destruct (mkdir fs p) as [fs1|e] eqn:Hm;
     [injection H as <-; apply mkdirs_path_last; exact Hm|]);
    (destruct e; try (destruct (eo && isdir fs p);
                      [injection H as <-; constructor|discriminate])).
  - discriminate.
  - pose proof (split_last_spec p) as Hsp.
    destruct (split_last p) as [[parent t]|]; [|discriminate].
    assert (Hpar : forall fs1,
      (match parent with [] => Ok fs | _ => mkdir_parents_go f true fs parent end)
        = Ok fs1 -> mkdirs_path p fs fs1).
    { intros fs1 H1. destruct parent as [|x parent'].
      - injection H1 as <-. constructor.
      - apply IH in H1. apply (mkdirs_path_weaken _ _ _ _ H1).
        exists [t]. symmetry. exact Hsp. }
    match type of H with
    | match ?x with Ok _ => _ | Exn _ => _ end = _ =>
        destruct x as [fs1|e] eqn:Hr; [|discriminate]
    end.
    apply (mkdirs_path_trans _ _ fs1); [exact (Hpar fs1 eq_refl)|].
    destruct eo.
    + exact (mkdir_exist_ok_path _ _ _ H).
    + exact (mkdirs_path_last _ _ _ H).
Qed.

Lemma mkdirs_path_io (p : path) (fs fs' : fsys) :
  mkdirs_path p fs fs' ->
  (forall q, ~ (exists r, q ++ r = p) -> lookup_in fs q = None -> lookup_in fs' q = None) /\
  (forall q cs, lookup_in fs q = Some (NDir cs) -> exists cs', lookup_in fs' q = Some (NDir cs')).
Proof.
  induction 1 as [|fs fs1 fs2 q' Hq' Hm _ [IHa IHd]]; [split; eauto|].
  destruct (mkdir_io q') as (Ha & Hd & _). split.
  - intros q Hq Hn. apply IHa; auto. apply (Ha _ _ Hm q); auto.
    intros ->. exact (Hq Hq').
  - intros q cs Hc. destruct (Hd _ _ Hm q cs Hc) as [cs1 H1]. exact (IHd _ _ H1).
Qed.

Lemma mkdir_parents_io (p : path) :
  io_keeps_absent (fun q => exists r, q ++ r = p) (fun fs => mkdir_parents fs p) /\
  io_keeps_dirs (fun fs => mkdir_parents fs p).
Proof.
  split; intros fs fs' H; apply mkdir_parents_go_path in H;
    apply mkdirs_path_io in H as [Ha Hd]; auto.
Qed.

Lemma copy2_io (src dst : path) :
  io_keeps_absent (fun q => q = dst \/ q = dst ++ [last_component src])
    (fun fs => copy2 fs src dst) /\
  io_keeps_dirs (fun fs => copy2 fs src dst) /\
  io_keeps_outside (fun q => comparable q dst) (fun fs => copy2 fs src dst).
Proof.
  unfold copy2. repeat split; intros fs fs' H;
    (destruct (list_eq_dec string_dec src _); [discriminate|]);
    (destruct (read_file fs src) as [d|e]; [|discriminate]);
    (destruct (isdir fs dst);
     destruct (write_file_io (dst ++ [last_component src]) d) as (Ha1 & Hd1 & Ho1);
     destruct (write_file_io dst d) as (Ha2 & Hd2 & Ho2)).
  - intros q Hq. apply (Ha1 _ _ H q). auto.
  - intros q Hq. apply (Ha2 _ _ H q). auto.
  - exact (Hd1 _ _ H).
  - exact (Hd2 _ _ H).
  - intros q Hq. apply (Ho1 _ _ H q). intros Hc. apply Hq. exact (comparable_ext _ _ _ Hc).
  - exact (Ho2 _ _ H).
Qed.

(** ** Steps of the monad that keep a reflexive and transitive relation *)

Section Preserves.
Variable R : fsys -> fsys -> Prop.
Hypothesis R_refl : forall fs, R fs fs.
Hypothesis R_trans : forall fs1 fs2 fs3, R fs1 fs2 -> R fs2 fs3 -> R fs1 fs3.

Lemma pres_ret {A : Type} (a : A) : preserves R (ret a).
Proof. intros fs r fs' [= _ <-]. apply R_refl. Qed.

Lemma pres_raise {A : Type} (e : exn) : preserves R (@raise A e).
Proof. intros fs r fs' [= _ <-]. apply R_refl. Qed.

Lemma pres_query {A : Type} (f : fsys -> A) : preserves R (query f).
Proof. intros fs r fs' [= _ <-]. apply R_refl. Qed.

Lemma pres_lift_res {A : Type} (f : fsys -> res A) : preserves R (lift_res f).
Proof.
  intros fs r fs' H. unfold lift_res in H.
  destruct (f fs); injection H as _ <-; apply R_refl.
Qed.

Lemma pres_lift_io (f : fsys -> res fsys) :
  io_preserves R f -> preserves R (lift_io f).
Proof.
  intros Hf fs r fs' H. unfold lift_io in H.
  destruct (f fs) as [fs1|e] eqn:E; injection H as _ <-; [exact (Hf _ _ E)|apply R_refl].
Qed.

Lemma pres_bind {A B : Type} (m : M A) (k : A -> M B) :
  preserves R m -> (forall a, preserves R (k a)) -> preserves R (bind m k).
Proof.
  intros Hm Hk fs r fs' H. unfold bind in H.
  destruct (m fs) as [[a|e] fs1] eqn:E.
  - exact (R_trans _ _ _ (Hm _ _ _ E) (Hk a _ _ _ H)).
  - injection H as _ <-. exact (Hm _ _ _ E).
Qed.

Lemma pres_suppress (m : M unit) : preserves R m -> preserves R (suppress m).
Proof.
  intros Hm fs r fs' H. unfold suppress in H.
  destruct (m fs) as [r1 fs1] eqn:E. injection H as _ <-. exact (Hm _ _ _ E).
Qed.

Lemma pres_mapM_ {A : Type} (f : A -> M unit) (l : list A) :
  (forall x, In x l -> preserves R (f x)) -> preserves R (mapM_ f l).
Proof.
  induction l as [|x l IH]; simpl; intros Hf; [apply pres_ret|].
  apply pres_bind; [apply Hf; auto|]. intros _. apply IH. auto.
Qed.

Lemma pres_if {A : Type} (b : bool) (m1 m2 : M A) :
  preserves R m1 -> preserves R m2 -> preserves R (if b then m1 else m2).
Proof. destruct b; auto. Qed.

End Preserves.

Lemma absent_rel_refl (T : path -> Prop) (fs : fsys) : absent_rel T fs fs.
Proof. intros q _ H. exact H. Qed.
Lemma absent_rel_trans (T : path -> Prop) (fs1 fs2 fs3 : fsys) :
  absent_rel T fs1 fs2 -> absent_rel T fs2 fs3 -> absent_rel T fs1 fs3.
Proof. intros H1 H2 q Hq Hn. auto. Qed.
Lemma dirs_rel_refl (fs : fsys) : dirs_rel fs fs.
Proof. intros q cs H. eauto. Qed.
Lemma dirs_rel_trans (fs1 fs2 fs3 : fsys) :
  dirs_rel fs1 fs2 -> dirs_rel fs2 fs3 -> dirs_rel fs1 fs3.
Proof. intros H1 H2 q cs H. destruct (H1 q cs H) as [cs1 H']. eauto. Qed.
Lemma outside_rel_refl (D : path -> Prop) (fs : fsys) : outside_rel D fs fs.
Proof. intros q _. reflexivity. Qed.
Lemma outside_rel_trans (D : path -> Prop) (fs1 fs2 fs3 : fsys) :
  outside_rel D fs1 fs2 -> outside_rel D fs2 fs3 -> outside_rel D fs1 fs3.
Proof. intros H1 H2 q Hq. rewrite H2, H1; auto. Qed.
Lemma file_rel_refl (p : path) (fs : fsys) : file_rel p fs fs.
Proof. intros d H. eauto. Qed.
Lemma file_rel_trans (p : path) (fs1 fs2 fs3 : fsys) :
  file_rel p fs1 fs2 -> file_rel p fs2 fs3 -> file_rel p fs1 fs3.
Proof. intros H1 H2 d H. destruct (H1 d H) as [d1 H']. eauto. Qed.

Create HintDb frames.
#[export] Hint Resolve absent_rel_refl absent_rel_trans dirs_rel_refl dirs_rel_trans
  outside_rel_refl outside_rel_trans file_rel_refl file_rel_trans : frames.

(** Split a monadic program into its steps; what is left are the steps
    that touch the file system. *)
Ltac pres_split :=
  repeat first
    [ apply pres_bind; try solve [eauto with frames]; [|intros ?]
    | apply pres_if; try solve [eauto with frames]
    | apply pres_ret; solve [eauto with frames]
    | apply pres_raise; solve [eauto with frames]
    | apply pres_query; solve [eauto with frames]
    | apply pres_lift_res; solve [eauto with frames]
    | apply pres_suppress; try solve [eauto with frames]
    | apply pres_lift_io; try solve [eauto with frames]
    | match goal with |- preserves _ (match ?x with _ => _ end) => destruct x end ].

Lemma pres_weaken {A : Type} (R R' : fsys -> fsys -> Prop) (m : M A) :
  preserves R m -> (forall fs fs', R fs fs' -> R' fs fs') -> preserves R' m.
Proof. intros H HR fs r fs' E. exact (HR _ _ (H _ _ _ E)). Qed.

Lemma absent_rel_weaken (T T' : path -> Prop) (fs fs' : fsys) :
  (forall q, T q -> T' q) -> absent_rel T fs fs' -> absent_rel T' fs fs'.
Proof. intros HT H q Hq. apply H. auto. Qed.

Lemma outside_rel_weaken (D D' : path -> Prop) (fs fs' : fsys) :
  (forall q, D q -> D' q) -> outside_rel D fs fs' -> outside_rel D' fs fs'.
Proof. intros HD H q Hq. apply H. auto. Qed.

Lemma path_div_ext (p : path) (name : string) : exists x, path_div p name = p ++ x.
Proof.
  unfold path_div. destruct (String.eqb name "").
  - exists []. symmetry. apply app_nil_r.
  - exists [name]. reflexivity.
Qed.

Lemma comparable_path_div (q p : path) (name : string) :
  comparable q (path_div p name) -> comparable q p.
Proof. destruct (path_div_ext p name) as [x ->]. apply comparable_ext. Qed.

Lemma bind_ok {A B : Type} (m : M A) (k : A -> M B) (fs : fsys) (b : B) (fs'' : fsys) :
  bind m k fs = (Ok b, fs'') ->
  exists a fs', m fs = (Ok a, fs') /\ k a fs' = (Ok b, fs'').
Proof.
  unfold bind. destruct (m fs) as [[a|e] fs']; [eauto|discriminate].
Qed.

Lemma bind_exn {A B : Type} (m : M A) (k : A -> M B) (fs fs' : fsys) (e : exn) :
  m fs = (Exn e, fs') -> bind m k fs = (Exn e, fs').
Proof. unfold bind. intros ->. reflexivity. Qed.

Lemma lift_io_ok (f : fsys -> res fsys) (fs fs' : fsys) (u : unit) :
  lift_io f fs = (Ok u, fs') -> f fs = Ok fs'.
Proof.
  unfold lift_io. destruct (f fs); intros [=]; subst; reflexivity.
Qed.

Lemma lookup_nonempty (fs : fsys) (p : path) :
  p <> [] -> lookup fs p = lookup_in fs p.
Proof. destruct p; [congruence|reflexivity]. Qed.

Lemma lookup_in_prefix_dir (fs : fsys) (p r : path) (cs : list entry) :
  lookup_in fs (p ++ r) = Some (NDir cs) -> exists cs', lookup_in fs p = Some (NDir cs').
Proof.
  rewrite lookup_in_app. destruct (lookup_in fs p) as [[d|cs']|]; eauto.
  destruct r; discriminate.
Qed.

Lemma lookup_in_prefix_none (fs : fsys) (p r : path) :
  lookup_in fs p = None -> lookup_in fs (p ++ r) = None.
Proof. rewrite lookup_in_app. intros ->. reflexivity. Qed.

Lemma write_file_parent (fs : fsys) (p : path) (n : string) (d : list byte) (fs' : fsys) :
  write_file fs (p ++ [n]) d = Ok fs' -> exists cs, lookup_in fs p = Some (NDir cs).
Proof.
  unfold write_file, at_parent. rewrite split_last_app. intros H.
  destruct (modify_in_spec _ _ _ _ H) as (cs & cs' & Hl & _). eauto.
Qed.

Lemma dirname_prefix (p : path) : exists y, dirname p ++ y = p.
Proof.
  unfold dirname. pose proof (split_last_spec p) as H.
  destruct (split_last p) as [[h t]|].
  - exists [t]. symmetry. exact H.
  - exists p. reflexivity.
Qed.

Lemma comparable_prefix (q p : path) (r s : path) : q ++ r = p ++ s -> comparable q p.
Proof. intros E. exists r, s. exact E. Qed.

Lemma write_file_at (fs : fsys) (p : path) (d : list byte) (fs' : fsys) :
  write_file fs p d = Ok fs' -> lookup_in fs' p = Some (NFile d).
Proof.
  intros H. apply write_file_spec in H as (_ & He & _).
  specialize (He []). rewrite app_nil_r in He. exact He.
Qed.

Lemma zip_write_all_pres (R : fsys -> fsys -> Prop) (zip_bytes : list (string * list byte) -> list byte)
  (zp : path) :
  (forall fs, R fs fs) -> (forall fs1 fs2 fs3, R fs1 fs2 -> R fs2 fs3 -> R fs1 fs3) ->
  (forall b, io_preserves R (fun fs => write_file fs zp b)) ->
  forall items ms, preserves R (zip_write_all zip_bytes zp ms items).
Proof.
  intros Hr Ht Hw. induction items as [|[src arc] items IH]; intros ms; simpl.
  - apply pres_ret; auto.
  - apply pres_bind; auto. unfold zip_write.
    apply pres_bind; auto; [apply pres_lift_res; auto|]. intros data.
    apply pres_bind; auto; [apply pres_lift_io; auto|]. intros _. apply pres_ret; auto.
Qed.

Lemma write_file_file_rel (p : path) (b : list byte) :
  io_preserves (file_rel p) (fun fs => write_file fs p b).
Proof. intros fs fs' H d _. exists b. exact (write_file_at _ _ _ _ H). Qed.

Lemma uop_of_prefix (v s q r : path) : q ++ r = v ++ s -> under_or_prefix v q.
Proof.
  intros E. apply app_eq_app in E as (l & [[-> _]|[-> _]]).
  - right. eauto.
  - left. eauto.
Qed.

Lemma uop_of_under (v s q : path) : q = v ++ s -> under_or_prefix v q.
Proof. intros ->. right. eauto. Qed.

Lemma str_length_app (s t : string) :
  String.length (s ++ t) = String.length s + String.length t.
Proof. induction s as [|c s IH]; simpl; auto. Qed.

Lemma archive_name_neq (n v : string) : (n ++ "-" ++ v ++ ".zip")%string <> n.
Proof.
  intros E. apply (f_equal String.length) in E.
  rewrite !str_length_app in E. simpl in E. lia.
Qed.

Lemma snoc_neq_under (O : path) (a n : string) (r s : path) :
  a <> n -> O ++ [a] ++ r <> O ++ n :: s.
Proof. intros Hn E. apply app_inv_head in E. injection E as E _. auto. Qed.

Lemma bind_ok_eq {A B : Type} (m : M A) (k : A -> M B) (fs fs' : fsys) (a : A) :
  m fs = (Ok a, fs') -> bind m k fs = k a fs'.
Proof. unfold bind. intros ->. reflexivity. Qed.

Lemma default_output_dir_nonempty (current_dir : path) (output_dir : option path) :
  default_output_dir current_dir output_dir <> [].
Proof.
  destruct output_dir as [[|x d]|]; simpl; try discriminate;
    apply not_eq_sym, app_cons_not_nil.
Qed.

Lemma modify_in_ok (es : list entry) (p : path) (g : list entry -> res (list entry))
  (cs cs' : list entry) :
  lookup_in es p = Some (NDir cs) -> g cs = Ok cs' -> exists es', modify_in es p g = Ok es'.
Proof.
  revert es. induction p as [|n p IH]; intros es Hl Hg; simpl in *.
  - injection Hl as ->. eauto.
  - destruct (find_entry n es) as [[m d|m cs0]|]; [destruct p; discriminate| |discriminate].
    destruct (IH cs0 Hl Hg) as [es' ->]. eauto.
Qed.

Lemma remove_ok (fs : fsys) (p : path) (d : list byte) :
  lookup_in fs p = Some (NFile d) -> exists fs', remove fs p = Ok fs'.
Proof.
  intros H. unfold remove, at_parent. pose proof (split_last_spec p) as Hs.
  destruct (split_last p) as [[parent n]|].
  - subst p. rewrite lookup_in_app in H.
    destruct (lookup_in fs parent) as [[d'|cs]|] eqn:Hp; try discriminate.
    simpl in H. destruct (find_entry n cs) as [[m d0|m cs0]|] eqn:Hf; try discriminate.
    eapply modify_in_ok; [exact Hp|]. rewrite Hf. reflexivity.
  - subst p. discriminate.
Qed.

Lemma firstn_skipn_length {A : Type} (n : nat) (l : list A) :
  firstn n l ++ skipn (length (firstn n l)) l = l.
Proof.
  rewrite length_firstn. destruct (Nat.le_ge_cases n (length l)) as [Hle|Hge].
  - rewrite Nat.min_l by exact Hle. apply firstn_skipn.
  - rewrite Nat.min_r by exact Hge. rewrite firstn_all2 by exact Hge.
    rewrite skipn_all. apply app_nil_r.
Qed.

Section HashChunks.
Variable H : hash_algo.
Hypothesis H_assoc : forall st a b, h_update H (h_update H st a) b = h_update H st (a ++ b).
Hypothesis H_nil : forall st, h_update H st [] = st.
Variable chunk_size : Z.

Lemma hash_chunks_nil (fuel : nat) (st : h_state H) : hash_chunks H chunk_size fuel st [] = st.
Proof.
  destruct fuel; simpl; [reflexivity|]. unfold read_chunk.
  destruct (chunk_size <? 0)%Z; [reflexivity|]. rewrite firstn_nil. reflexivity.
Qed.

Lemma hash_chunks_spec (Hk : chunk_size <> 0%Z) : forall fuel st data,
  length data < fuel -> hash_chunks H chunk_size fuel st data = h_update H st data.
Proof.
  induction fuel as [|f IH]; intros st data Hlen; [lia|]. simpl. unfold read_chunk.
  destruct (chunk_size <? 0)%Z eqn:Hneg.
  - destruct data as [|b data']; [symmetry; apply H_nil|].
    rewrite skipn_all, hash_chunks_nil. reflexivity.
  - assert (Hn : 1 <= Z.to_nat chunk_size).
    { apply Z.ltb_ge in Hneg. lia. }
    destruct (firstn (Z.to_nat chunk_size) data) as [|c cs] eqn:Hf.
    + destruct data as [|b data']; [symmetry; apply H_nil|].
      destruct (Z.to_nat chunk_size); [lia|discriminate].
    + pose proof (firstn_skipn_length (Z.to_nat chunk_size) data) as E.
      rewrite Hf in E. rewrite IH.
      * rewrite H_assoc. f_equal. exact E.
      * destruct data as [|b data']; [rewrite firstn_nil in Hf; discriminate Hf|].
        simpl in Hlen |- *. rewrite length_skipn. lia.
Qed.
End HashChunks.

(** Take the first step off a run that ended normally. *)
Ltac peel H :=
  let a := fresh "a" in let f := fresh "fs" in let H1 := fresh "E" in
  apply bind_ok in H; destruct H as (a & f & H1 & H); cbv beta zeta in H.

(** ** The packager's steps *)

Section PackagerProofs.
Variables ADDON_NAME ADDON_VERSION ADDON_CLIENT_DIR : string.
Variable current_dir : path.
Variable hashlib : string -> option hash_algo.
Variable urlopen : string -> option (list byte).
Variable zip_bytes : list (string * list byte) -> list byte.
Variable json_bytes : list file_info -> list byte.
Variable text_bytes : string -> list byte.

Local Abbreviation download_usd_entry_ := (download_usd_entry hashlib urlopen).
Local Abbreviation download_loop_ := (download_loop ADDON_NAME hashlib urlopen).
Local Abbreviation download_usd_zip_ := (download_usd_zip ADDON_NAME hashlib urlopen).

Lemma download_usd_entry_outside (d : path) (pi : source_info) :
  preserves (outside_rel (fun q => comparable q d)) (download_usd_entry_ d pi).
Proof.
  unfold download_usd_entry, checksum_of, urlretrieve. pres_split.
  - intros fs fs' H. apply (proj2 (proj2 (remove_io _)) fs fs') in H.
    revert H. apply outside_rel_weaken. intros q Hq. exact (comparable_path_div _ _ _ Hq).
  - intros fs fs' H. apply (proj2 (proj2 (write_file_io _ _)) fs fs') in H.
    revert H. apply outside_rel_weaken. intros q Hq. exact (comparable_path_div _ _ _ Hq).
Qed.

Lemma download_usd_entry_absent (d : path) (pi : source_info) :
  preserves (absent_rel (fun q => q = path_div d (last_segment (url pi))))
    (download_usd_entry_ d pi).
Proof.
  unfold download_usd_entry, checksum_of, urlretrieve. pres_split.
  - intros fs fs' H. apply (proj1 (remove_io _) fs fs') in H.
    revert H. apply absent_rel_weaken. contradiction.
  - exact (proj1 (write_file_io _ _)).
Qed.

Lemma download_loop_outside (d : path) : forall entries acc,
  preserves (outside_rel (fun q => comparable q d)) (download_loop_ d entries acc).
Proof.
  induction entries as [|[[item pn] pi] entries IH]; intros acc; simpl.
  - apply pres_ret. auto with frames.
  - apply pres_bind; eauto with frames. apply download_usd_entry_outside.
Qed.

Lemma download_loop_absent (d : path) : forall entries acc,
  preserves (absent_rel (fun q => exists e, In e entries /\
                                   q = path_div d (last_segment (url (snd e)))))
    (download_loop_ d entries acc).
Proof.
  induction entries as [|[[item pn] pi] entries IH]; intros acc; simpl.
  - apply pres_ret. auto with frames.
  - apply pres_bind; eauto with frames.
    + eapply pres_weaken; [apply download_usd_entry_absent|].
      intros ? ?. apply absent_rel_weaken. intros q ->. exists (item, pn, pi). auto.
    + intros _. eapply pres_weaken; [apply IH|]. intros ? ?. apply absent_rel_weaken.
      intros q (e & He & ->). exists e. auto.
Qed.

Lemma download_usd_zip_absent (d : path) :
  preserves (absent_rel (fun q => exists f, In f download_filenames /\ q = path_div d f))
    (download_usd_zip_ d).
Proof.
  eapply pres_weaken; [apply download_loop_absent|]. intros ? ?. apply absent_rel_weaken.
  intros q (e & He & ->). exists (last_segment (url (snd e))). split; auto.
  unfold download_filenames. exact (in_map (fun e => last_segment (url (snd e))) _ _ He).
Qed.

Local Abbreviation package_build_ :=
  (package_build ADDON_NAME ADDON_VERSION ADDON_CLIENT_DIR current_dir hashlib urlopen
     zip_bytes json_bytes text_bytes).
Local Abbreviation main_ :=
  (main ADDON_NAME ADDON_VERSION ADDON_CLIENT_DIR current_dir hashlib urlopen
     zip_bytes json_bytes text_bytes).

Lemma package_build_to_fill (O : path) (fs0 fsA : fsys) (u : unit) :
  package_build_ O fs0 = (Ok u, fsA) ->
  exists fs1 fs2 fs3 fs4 u1 infos u3 u4,
    lift_io (fun fs => mkdir_exist_ok fs (current_dir ++ ["downloads"])) fs0 = (Ok u1, fs1) /\
    download_usd_zip_ (current_dir ++ ["downloads"]) fs1 = (Ok infos, fs2) /\
    (if isdir fs2 (O ++ [ADDON_NAME; ADDON_VERSION])
     then lift_io (fun fs => rmtree fs O) else ret tt) fs2 = (Ok u3, fs3) /\
    _fill_client_version ADDON_NAME ADDON_VERSION ADDON_CLIENT_DIR current_dir
      text_bytes fs3 = (Ok u4, fs4).
Proof.
  intros E. unfold package_build in E. peel E. peel E. peel E.
  unfold query in E2. injection E2 as <- <-. peel E. peel E.
  eexists _, _, _, _, _, _, _, _. eauto.
Qed.

(** C10. [zip_client_side] returns normally and leaves the file system as
    it was when the addon's [client] directory is not a directory; but
    when [client] does not exist when [main] starts, [main] never ends
    normally: [_fill_client_version] runs before [zip_client_side] and
    writes [client/<ADDON_CLIENT_DIR>/version.py], which fails. *)
Theorem missing_client_dir_aborts_main (fs0 : fsys) (output_dir : option path)
  (skip_zip keep_sources : bool) :
  lookup fs0 (current_dir ++ ["client"]) = None ->
  (forall addon_package_dir fs,
     isdir fs (current_dir ++ ["client"]) = false ->
     zip_client_side current_dir zip_bytes addon_package_dir fs = (Ok tt, fs)) /\
  fst (main_ output_dir skip_zip keep_sources fs0) <> Ok tt.
Proof.
  intros Habs. split.
  - intros d fs Hd. unfold zip_client_side, bind, query. rewrite Hd. reflexivity.
  - destruct (main_ output_dir skip_zip keep_sources fs0) as [r fsZ] eqn:E.
    simpl. intros ->. unfold main in E. peel E.
    apply package_build_to_fill in E0
      as (fs1 & fs2 & fs3 & fs4 & u1 & infos & u3 & u4 & H1 & H2 & H3 & H4).
    set (client := current_dir ++ ["client"]) in *.
    assert (Hc0 : lookup_in fs0 client = None).
    { rewrite <- lookup_nonempty; [exact Habs|]. apply not_eq_sym, app_cons_not_nil. }
    assert (Hnd : forall f, client <> path_div (current_dir ++ ["downloads"]) f).
    { intros f. destruct (path_div_ext (current_dir ++ ["downloads"]) f) as [x ->].
      rewrite <- app_assoc. intros Hx. apply app_inv_head in Hx. discriminate. }
    assert (Hc1 : lookup_in fs1 client = None).
    { apply lift_io_ok in H1. apply (proj1 (mkdir_exist_ok_io _) _ _ H1); auto.
      intros Hx. apply app_inv_head in Hx. discriminate. }
    assert (Hc2 : lookup_in fs2 client = None).
    { apply (download_usd_zip_absent _ _ _ _ H2); auto.
      intros (f & _ & Hf). exact (Hnd f Hf). }
    assert (Hc3 : lookup_in fs3 client = None).
    { destruct (isdir fs2 _).
      - apply lift_io_ok in H3. apply (proj1 (rmtree_io _) _ _ H3); auto.
      - injection H3 as _ <-. exact Hc2. }
    unfold _fill_client_version in H4. apply lift_io_ok in H4.
    replace (current_dir ++ ["client"; ADDON_CLIENT_DIR; "version.py"])
      with ((client ++ [ADDON_CLIENT_DIR]) ++ ["version.py"]) in H4
      by (unfold client; rewrite <- !app_assoc; reflexivity).
    apply write_file_parent in H4 as [cs Hcs].
    apply lookup_in_prefix_dir in Hcs as [cs' Hcs']. congruence.
Qed.

Lemma zip_client_side_dirs (d : path) :
  preserves dirs_rel (zip_client_side current_dir zip_bytes d).
Proof.
  unfold zip_client_side, zip_open. pres_split.
  - exact (proj2 (makedirs_go_io _ _)).
  - exact (proj1 (proj2 (write_file_io _ _))).
  - apply zip_write_all_pres; eauto with frames.
    intros b. exact (proj1 (proj2 (write_file_io _ _))).
Qed.

Lemma create_server_package_dirs (O aod : path) (v : string) :
  preserves dirs_rel (create_server_package ADDON_NAME current_dir zip_bytes O aod v).
Proof.
  unfold create_server_package, zip_open, zip_write. pres_split.
  - exact (proj1 (proj2 (write_file_io _ _))).
  - exact (proj1 (proj2 (write_file_io _ _))).
  - apply zip_write_all_pres; eauto with frames.
    intros b. exact (proj1 (proj2 (write_file_io _ _))).
Qed.

Lemma create_server_package_file (O aod : path) (v : string) (fs fs' : fsys) (u : unit) :
  create_server_package ADDON_NAME current_dir zip_bytes O aod v fs = (Ok u, fs') ->
  exists d, lookup_in fs' (O ++ [(ADDON_NAME ++ "-" ++ v ++ ".zip")%string]) = Some (NFile d).
Proof.
  unfold create_server_package. intros E. peel E.
  unfold zip_open in E0. apply lift_io_ok, write_file_at in E0.
  assert (Hp : preserves (file_rel (O ++ [(ADDON_NAME ++ "-" ++ v ++ ".zip")%string]))
    (members <- zip_write zip_bytes (O ++ [(ADDON_NAME ++ "-" ++ v ++ ".zip")%string]) []
                  (current_dir ++ ["package.py"], "package.py") ;;
     items <- query (fun fs => os_walk_files fs aod) ;;
     _ <- zip_write_all zip_bytes (O ++ [(ADDON_NAME ++ "-" ++ v ++ ".zip")%string]) members items ;;
     ret tt)).
  { unfold zip_write. pres_split.
    - apply write_file_file_rel.
    - apply zip_write_all_pres; eauto with frames. intros b. apply write_file_file_rel. }
  exact (Hp _ _ _ E _ E0).
Qed.

Lemma package_build_absent (O : path) :
  preserves (absent_rel (T_build current_dir ADDON_NAME ADDON_VERSION ADDON_CLIENT_DIR O))
    (package_build_ O).
Proof.
  set (vd := O ++ [ADDON_NAME; ADDON_VERSION]).
  assert (Hv : (O ++ [ADDON_NAME]) ++ [ADDON_VERSION] = vd)
    by (unfold vd; rewrite <- app_assoc; reflexivity).
  assert (Hu : forall T f, io_keeps_absent T f -> (forall q, T q -> under_or_prefix vd q) ->
     io_preserves (absent_rel (T_build current_dir ADDON_NAME ADDON_VERSION ADDON_CLIENT_DIR O)) f).
  { intros T f H HT. eapply io_absent_weaken; [exact H|].
    intros q Hq. right. right. right. exact (HT q Hq). }
  unfold package_build.
  apply pres_bind; try solve [eauto with frames]; [|intros _].
  { apply pres_lift_io; [eauto with frames|].
    eapply io_absent_weaken; [exact (proj1 (mkdir_exist_ok_io _))|].
    intros q ->. left. reflexivity. }
  apply pres_bind; try solve [eauto with frames]; [|intros infos].
  { eapply pres_weaken; [apply download_usd_zip_absent|].
    intros ? ?. apply absent_rel_weaken. intros q Hq. right. left. exact Hq. }
  unfold _fill_client_version, copy_server_content, zip_client_side, zip_open.
  rewrite Hv.
  pres_split.
  - eapply io_absent_weaken; [exact (proj1 (rmtree_io _))|]. contradiction.
  - eapply io_absent_weaken; [exact (proj1 (write_file_io _ _))|].
    intros q ->. right. right. left. reflexivity.
  - apply (Hu _ _ (proj1 (makedirs_go_io _ _))). intros q [r Hr].
    exact (uop_of_prefix vd [] q r ltac:(rewrite app_nil_r; exact Hr)).
  - apply pres_mapM_; [eauto with frames|eauto with frames|].
    intros [src dst] Hin. apply in_map_iff in Hin as ([src' sub] & E & _).
    injection E as <- <-. unfold safe_copy_file. pres_split.
    + apply (Hu _ _ (proj1 (makedirs_go_io _ _))). intros q [r Hr].
      destruct (dirname_prefix (vd ++ ["server"] ++ split_slash sub)) as [y Hy].
      apply (uop_of_prefix vd (["server"] ++ split_slash sub) q (r ++ y)).
      rewrite app_assoc, Hr. exact Hy.
    + apply (Hu _ _ (proj1 (copy2_io _ _))). intros q [->| ->].
      * exact (uop_of_under _ _ _ eq_refl).
      * rewrite <- app_assoc. exact (uop_of_under _ _ _ eq_refl).
  - apply (Hu _ _ (proj1 (mkdir_parents_io _))). intros q [r Hr].
    exact (uop_of_prefix vd ["private"] q r Hr).
  - apply pres_mapM_; [eauto with frames|eauto with frames|].
    intros fi _. apply pres_lift_io; [eauto with frames|].
    apply (Hu _ _ (proj1 (copy2_io _ _))).
    destruct (path_div_ext (vd ++ ["private"]) (fi_filename fi)) as [x ->].
    intros q [->| ->].
    * rewrite <- app_assoc. exact (uop_of_under _ _ _ eq_refl).
    * rewrite <- !app_assoc. exact (uop_of_under _ _ _ eq_refl).
  - apply (Hu _ _ (proj1 (write_file_io _ _))). intros q ->.
    rewrite <- app_assoc. exact (uop_of_under _ _ _ eq_refl).
  - apply (Hu _ _ (proj1 (makedirs_go_io _ _))). intros q [r Hr].
    exact (uop_of_prefix vd ["private"] q r Hr).
  - apply (Hu _ _ (proj1 (write_file_io _ _))). intros q ->.
    rewrite <- app_assoc. exact (uop_of_under _ _ _ eq_refl).
  - apply zip_write_all_pres; eauto with frames.
    intros b. apply (Hu _ _ (proj1 (write_file_io _ _))). intros q ->.
    rewrite <- app_assoc. exact (uop_of_under _ _ _ eq_refl).
Qed.

Lemma package_build_vdir (O : path) (fs0 fs' : fsys) (u : unit) :
  package_build_ O fs0 = (Ok u, fs') ->
  exists cs, lookup_in fs' (O ++ [ADDON_NAME; ADDON_VERSION]) = Some (NDir cs).
Proof.
  intros E. unfold package_build in E. do 12 peel E.
  apply lift_io_ok in E11.
  pose proof (proj1 (proj2 (write_file_io _ _)) _ _ E11) as Hd.
  apply write_file_parent in E11 as [cs Hcs].
  apply lookup_in_prefix_dir in Hcs as [cs' Hcs'].
  apply Hd in Hcs' as [cs1 Hcs1].
  rewrite <- app_assoc in Hcs1. exact (zip_client_side_dirs _ _ _ _ E _ _ Hcs1).
Qed.

(** C5. Let [O] be the output directory, [A] the archive name
    [{name}-{version}.zip] and [O/{name}/{version}] the version directory.
    With [--skip-zip], a run that ends normally creates no archive at
    [O/A] and leaves the version directory in place; without it, the run
    leaves an archive file at [O/A], and the version directory is removed
    unless [--keep-sources] is given, in which case it remains.  The
    archive name must not be one of the names the build itself writes
    ([downloads], [version.py] or a downloaded archive). *)
Theorem main_zip_modes (fs0 fs' : fsys) (output_dir : option path) (skip_zip keep_sources : bool) :
  ~ In (ADDON_NAME ++ "-" ++ ADDON_VERSION ++ ".zip")%string
       ("downloads" :: "version.py" :: download_filenames) ->
  main_ output_dir skip_zip keep_sources fs0 = (Ok tt, fs') ->
  let out := default_output_dir current_dir output_dir in
  let archive := out ++ [(ADDON_NAME ++ "-" ++ ADDON_VERSION ++ ".zip")%string] in
  let version_dir := out ++ [ADDON_NAME; ADDON_VERSION] in
  (skip_zip = true -> lookup fs0 archive = None ->
     lookup fs' archive = None /\ isdir fs' version_dir = true) /\
  (skip_zip = false -> isfile fs' archive = true /\
     (keep_sources = false -> lookup fs' version_dir = None) /\
     (keep_sources = true -> isdir fs' version_dir = true)).
Proof.
  intros Hn E out archive version_dir. set (O := out) in *.
  set (A := (ADDON_NAME ++ "-" ++ ADDON_VERSION ++ ".zip")%string) in *.
  assert (HAN : A <> ADDON_NAME) by apply archive_name_neq.
  assert (Har : archive <> []) by (apply not_eq_sym, app_cons_not_nil).
  assert (Hvd : version_dir <> []) by (apply not_eq_sym, app_cons_not_nil).
  unfold main in E. peel E.
  change (default_output_dir current_dir output_dir) with O in E, E0.
  assert (Hv : (O ++ [ADDON_NAME]) ++ [ADDON_VERSION] = version_dir)
    by (unfold version_dir; rewrite <- app_assoc; reflexivity).
  rewrite Hv in E.
  destruct (package_build_vdir _ _ _ _ E0) as [cs Hcs]. fold version_dir in Hcs.
  split.
  - intros -> H0. simpl in E. injection E as <-.
    unfold isdir. rewrite !lookup_nonempty by assumption. rewrite Hcs. split; [|reflexivity].
    rewrite lookup_nonempty in H0 by assumption.
    apply (package_build_absent _ _ _ _ E0); [|exact H0].
    unfold archive, T_build. intros [Hq|[(f & Hf & Hq)|[Hq|[(r & Hq)|(s & Hq)]]]].
    + apply app_inj_tail in Hq as [_ Hq]. apply Hn. left. symmetry. exact Hq.
    + unfold path_div in Hq. destruct (String.eqb f "").
      * apply app_inj_tail in Hq as [_ Hq]. apply Hn. left. symmetry. exact Hq.
      * apply app_inj_tail in Hq as [_ ->]. apply Hn. right. right. exact Hf.
    + replace (current_dir ++ ["client"; ADDON_CLIENT_DIR; "version.py"])
        with ((current_dir ++ ["client"; ADDON_CLIENT_DIR]) ++ ["version.py"]) in Hq
        by (rewrite <- app_assoc; reflexivity).
      apply app_inj_tail in Hq as [_ Hq]. apply Hn. right. left. symmetry. exact Hq.
    + unfold version_dir in Hq. rewrite <- app_assoc in Hq.
      exact (snoc_neq_under O A ADDON_NAME r [ADDON_VERSION] HAN Hq).
    + unfold version_dir in Hq. rewrite <- app_assoc in Hq. apply app_inv_head in Hq.
      discriminate.
  - intros ->. simpl in E. peel E.
    destruct (create_server_package_file _ _ _ _ _ _ E1) as [d Hd]. fold A archive in Hd.
    split; [|split].
    + destruct keep_sources; simpl in E.
      * injection E as <-. unfold isfile. rewrite lookup_nonempty, Hd by assumption.
        reflexivity.
      * apply lift_io_ok in E. unfold isfile. rewrite lookup_nonempty by assumption.
        rewrite (proj2 (rmtree_io _) _ _ E archive), Hd; [reflexivity|].
        intros (r & s & Hq). unfold archive in Hq. rewrite <- !app_assoc in Hq.
        exact (snoc_neq_under O A ADDON_NAME r s HAN Hq).
    + intros ->. simpl in E. apply lift_io_ok, rmtree_spec in E as [_ He].
      rewrite lookup_nonempty by assumption. unfold version_dir.
      replace (O ++ [ADDON_NAME; ADDON_VERSION]) with ((O ++ [ADDON_NAME]) ++ [ADDON_VERSION])
        by (rewrite <- app_assoc; reflexivity).
      apply He.
    + intros ->. simpl in E. injection E as <-.
      destruct (create_server_package_dirs _ _ _ _ _ _ E1 _ _ Hcs) as [cs' Hcs'].
      unfold isdir. rewrite lookup_nonempty, Hcs' by assumption. reflexivity.
Qed.

Lemma download_loop_app (d : path) : forall pre rest acc fs,
  download_loop_ d (pre ++ rest) acc fs =
  bind (download_loop_ d pre acc) (fun acc' => download_loop_ d rest acc') fs.
Proof.
  induction pre as [|[[v pn] pi] pre IH]; intros rest acc fs; simpl.
  - reflexivity.
  - unfold bind at 1 2 3. destruct (download_usd_entry_ d pi fs) as [[u|e] fs1]; [|reflexivity].
    rewrite IH. reflexivity.
Qed.

(** C3. A checksum mismatch after a fresh download is fatal, and it stops
    the run before anything of the package is written:
    - when the step downloads the archive -- because it was not there,
      or because it was there with another digest and has been removed --
      the network serves a body and the digest [c] of the stored file
      differs from the declared checksum, the entry step raises
      [ValueError];
    - once the entries before it were handled, an entry that raises makes
      [download_usd_zip] raise the same exception;
    - when the download step of [main] raises, [main] raises the same
      exception in the same state, and every path at or under the output
      directory is as it was before the run, provided the output
      directory neither contains nor lies inside the downloads directory
      (the downloads directory is created and filled in place). *)
Theorem checksum_mismatch_aborts_before_output :
  (forall d pi fs fs0 fs1 body c,
     let zip_path := path_div d (last_segment (url pi)) in
     (path_exists fs zip_path = false /\ fs0 = fs \/
      path_exists fs zip_path = true /\
      (exists c0, calculate_file_checksum hashlib fs zip_path (checksum_algorithm pi) 10000
                  = Ok c0 /\ c0 <> checksum pi) /\
      remove fs zip_path = Ok fs0) ->
     urlopen (url pi) = Some body ->
     write_file fs0 zip_path body = Ok fs1 ->
     calculate_file_checksum hashlib fs1 zip_path (checksum_algorithm pi) 10000 = Ok c ->
     c <> checksum pi ->
     download_usd_entry_ d pi fs =
       (Exn (ValueError ("USD zip checksum mismatch: " ++ c ++ " != " ++ checksum pi)), fs1)) /\
  (forall d pre v pn pi post acc acc' fs fsm fs' e,
     download_loop_ d pre acc fs = (Ok acc', fsm) ->
     download_usd_entry_ d pi fsm = (Exn e, fs') ->
     download_loop_ d (pre ++ (v, pn, pi) :: post) acc fs = (Exn e, fs')) /\
  (forall output_dir skip_zip keep_sources fs0 fsd fs1 e,
     let downloads := current_dir ++ ["downloads"] in
     let out := default_output_dir current_dir output_dir in
     (forall r s, out ++ r <> downloads ++ s) ->
     lift_io (fun fs => mkdir_exist_ok fs downloads) fs0 = (Ok tt, fsd) ->
     download_usd_zip_ downloads fsd = (Exn e, fs1) ->
     main_ output_dir skip_zip keep_sources fs0 = (Exn e, fs1) /\
     forall r, lookup fs1 (out ++ r) = lookup fs0 (out ++ r)).
Proof.
  split; [|split].
  - intros d pi fs fs0 fs1 body c zip_path Hpre Hurl Hw Hc Hne.
    assert (Hne' : String.eqb (checksum pi) c = false)
      by (apply String.eqb_neq; intros E; apply Hne; symmetry; exact E).
    cbv beta zeta delta [download_usd_entry bind query checksum_of lift_res lift_io ret
                         urlretrieve raise].
    fold zip_path.
    destruct Hpre as [[Hex ->] | (Hex & (c0 & Hc0 & Hne0) & Hrm)].
    + rewrite Hex. cbv beta iota. rewrite Hurl, Hw. cbv beta iota.
      rewrite Hc. cbv beta iota. rewrite Hne'. reflexivity.
    + assert (Hne0' : String.eqb (checksum pi) c0 = false)
        by (apply String.eqb_neq; intros E; apply Hne0; symmetry; exact E).
      rewrite Hex. cbv beta iota. rewrite Hc0. cbv beta iota. rewrite Hne0'.
      cbv beta iota. rewrite Hrm. cbv beta iota. rewrite Hurl, Hw. cbv beta iota.
      rewrite Hc. cbv beta iota. rewrite Hne'. reflexivity.
  - intros d pre v pn pi post acc acc' fs fsm fs' e Hpre Hent.
    rewrite download_loop_app, (bind_ok_eq _ _ _ _ _ Hpre). simpl.
    exact (bind_exn _ _ _ _ _ Hent).
  - intros output_dir skip_zip keep_sources fs0 fsd fs1 e downloads out Hout H1 H2.
    assert (Hp : package_build_ out fs0 = (Exn e, fs1)).
    { unfold package_build. rewrite (bind_ok_eq _ _ _ _ _ H1).
      exact (bind_exn _ _ _ _ _ H2). }
    split; [exact (bind_exn _ _ _ _ _ Hp)|].
    intros r. assert (Hn : out ++ r <> []).
    { intros Hx. apply app_eq_nil in Hx as [Hx _].
      exact (default_output_dir_nonempty _ _ Hx). }
    rewrite !lookup_nonempty by exact Hn.
    assert (Hc : ~ comparable (out ++ r) downloads).
    { intros (r' & s & Hx). rewrite <- app_assoc in Hx. exact (Hout _ _ Hx). }
    apply lift_io_ok in H1.
    rewrite (download_loop_outside _ _ _ _ _ _ H2 _ Hc).
    exact (proj2 (proj2 (mkdir_exist_ok_io _)) _ _ H1 _ Hc).
Qed.

Lemma download_loop_records (d : path) : forall entries acc fs infos fs',
  download_loop_ d entries acc fs = (Ok infos, fs') ->
  infos = acc ++ map (fun '(_, pn, pi) => mk_file_info ADDON_NAME (last_segment (url pi)) pn pi)
                     entries.
Proof.
  induction entries as [|[[v pn] pi] entries IH]; intros acc fs infos fs' E; simpl in E.
  - injection E as <- _. rewrite app_nil_r. reflexivity.
  - peel E. rewrite (IH _ _ _ _ E), <- app_assoc. reflexivity.
Qed.

(** C4. For the archive [zip] of an entry [pi] in the downloads
    directory [d]:
    - [download_usd_zip] returns one record per entry of the source spec,
      in order, each built from the entry, whatever happened to the
      files;
    - when [zip] exists and its digest is the declared checksum, the entry
      step does nothing;
    - when [zip] exists with another digest, it is removed, and the entry
      step then behaves as on the file system without [zip];
    - when [zip] does not exist and the entry step ends normally, [zip]
      holds the body served for the entry's URL, and its digest is the
      declared checksum. *)
Theorem download_usd_zip_cache :
  (forall d fs infos fs',
     download_usd_zip_ d fs = (Ok infos, fs') ->
     infos = map (fun '(_, pn, pi) => mk_file_info ADDON_NAME (last_segment (url pi)) pn pi)
               (usd_entries USD_SOURCES) /\
     length infos = length (usd_entries USD_SOURCES)) /\
  (forall d pi fs,
     let zip := path_div d (last_segment (url pi)) in
     path_exists fs zip = true ->
     calculate_file_checksum hashlib fs zip (checksum_algorithm pi) 10000 = Ok (checksum pi) ->
     download_usd_entry_ d pi fs = (Ok tt, fs)) /\
  (forall d pi fs c,
     let zip := path_div d (last_segment (url pi)) in
     path_exists fs zip = true ->
     calculate_file_checksum hashlib fs zip (checksum_algorithm pi) 10000 = Ok c ->
     c <> checksum pi ->
     exists fs1, remove fs zip = Ok fs1 /\ path_exists fs1 zip = false /\
       download_usd_entry_ d pi fs = download_usd_entry_ d pi fs1) /\
  (forall d pi fs fs',
     let zip := path_div d (last_segment (url pi)) in
     path_exists fs zip = false ->
     download_usd_entry_ d pi fs = (Ok tt, fs') ->
     exists body, urlopen (url pi) = Some body /\ lookup_in fs' zip = Some (NFile body) /\
       calculate_file_checksum hashlib fs' zip (checksum_algorithm pi) 10000 = Ok (checksum pi)).
Proof.
  split; [|split; [|split]].
  - intros d fs infos fs' E. apply download_loop_records in E. rewrite app_nil_l in E. subst infos.
    split; [reflexivity|]. apply length_map.
  - intros d pi fs zip Hex Hc.
    cbv beta zeta delta [download_usd_entry bind query checksum_of lift_res ret].
    fold zip. rewrite Hex. cbv beta iota. rewrite Hc. cbv beta iota.
    rewrite String.eqb_refl. reflexivity.
  - intros d pi fs c zip Hex Hc Hne.
    assert (Hnz : zip <> []) by (intros Hz; rewrite Hz in Hex; discriminate).
    assert (Hf : exists data, lookup_in fs zip = Some (NFile data)).
    { unfold calculate_file_checksum, read_file in Hc.
      rewrite lookup_nonempty in Hc by exact Hnz.
      destruct (hashlib (checksum_algorithm pi)); [|discriminate].
      destruct (lookup_in fs zip) as [[data|cs]|]; try discriminate. eauto. }
    destruct Hf as [data Hf]. destruct (remove_ok _ _ _ Hf) as [fs1 Hrm].
    assert (Hex1 : path_exists fs1 zip = false).
    { pose proof Hrm as Hr. apply remove_spec in Hr as (_ & He & _). specialize (He []).
      rewrite app_nil_r in He. unfold path_exists.
      rewrite lookup_nonempty, He by exact Hnz. reflexivity. }
    exists fs1. split; [exact Hrm|]. split; [exact Hex1|].
    cbv beta zeta delta [download_usd_entry bind query checksum_of lift_res lift_io ret].
    fold zip. rewrite Hex, Hex1. cbv beta iota. rewrite Hc. cbv beta iota.
    destruct (String.eqb (checksum pi) c) eqn:Eq.
    + apply String.eqb_eq in Eq. congruence.
    + rewrite Hrm. reflexivity.
  - intros d pi fs fs' zip Hex E.
    cbv beta zeta delta [download_usd_entry bind query checksum_of lift_res lift_io ret
                         urlretrieve raise] in E.
    fold zip in E. rewrite Hex in E. cbv beta iota in E.
    destruct (urlopen (url pi)) as [body|]; [|discriminate].
    destruct (write_file fs zip body) as [fs1|e] eqn:Hw; [|discriminate].
    destruct (calculate_file_checksum hashlib fs1 zip (checksum_algorithm pi) 10000)
      as [c|e] eqn:Hc; [|discriminate].
    destruct (String.eqb (checksum pi) c) eqn:Eq; [|discriminate].
    injection E as <-. apply String.eqb_eq in Eq. subst c.
    exists body. split; [reflexivity|]. split; [exact (write_file_at _ _ _ _ Hw)|exact Hc].
Qed.

End PackagerProofs.

Lemma main_zip_modes_witness :
  isfile (snd (Inst.main_with Inst.urlopen_good [Inst.repo] None false false))
    ["repo"; "package"; "ayon_usd-0.1.0.zip"] = true /\
  lookup (snd (Inst.main_with Inst.urlopen_good [Inst.repo] None true false))
    ["repo"; "package"; "ayon_usd-0.1.0.zip"] = None.
Proof.
  assert (Hn : ~ In (Inst.ADDON_NAME ++ "-" ++ Inst.ADDON_VERSION ++ ".zip")%string
                 ("downloads" :: "version.py" :: download_filenames)).
  { vm_compute. intros H. repeat destruct H as [H|H]; try discriminate; exact H. }
  split.
  - pose proof (main_zip_modes Inst.ADDON_NAME Inst.ADDON_VERSION Inst.ADDON_NAME
      Inst.current_dir Inst.hashlib Inst.urlopen_good Inst.zip_bytes Inst.json_bytes
      list_byte_of_string [Inst.repo]
      (snd (Inst.main_with Inst.urlopen_good [Inst.repo] None false false))
      None false false Hn ltac:(vm_compute; reflexivity)) as H.
    exact (proj1 (proj2 H eq_refl)).
  - pose proof (main_zip_modes Inst.ADDON_NAME Inst.ADDON_VERSION Inst.ADDON_NAME
      Inst.current_dir Inst.hashlib Inst.urlopen_good Inst.zip_bytes Inst.json_bytes
      list_byte_of_string [Inst.repo]
      (snd (Inst.main_with Inst.urlopen_good [Inst.repo] None true false))
      None true false Hn ltac:(vm_compute; reflexivity)) as H.
    exact (proj1 (proj1 H eq_refl ltac:(vm_compute; reflexivity))).
Defined.

Lemma missing_client_dir_aborts_main_witness :
  lookup [Inst.repo_no_client] (Inst.current_dir ++ ["client"]) = None /\
  fst (Inst.main_with Inst.urlopen_good [Inst.repo_no_client] None false false) <> Ok tt.
Proof.
  split; [reflexivity|].
  exact (proj2 (missing_client_dir_aborts_main Inst.ADDON_NAME Inst.ADDON_VERSION
    Inst.ADDON_NAME Inst.current_dir Inst.hashlib Inst.urlopen_good Inst.zip_bytes
    Inst.json_bytes list_byte_of_string [Inst.repo_no_client] None false false eq_refl)).
Defined.

(** C10, counterexample: on a repository without [client], the packaging
    run does not complete; [main] stops with the [FileNotFoundError] of
    the version file write. *)
Lemma missing_client_dir_run_fails :
  fst (Inst.main_with Inst.urlopen_good [Inst.repo_no_client] None false false)
  = Exn FileNotFoundError.
Proof. vm_compute. reflexivity. Qed.

Lemma checksum_mismatch_aborts_before_output_witness :
  (exists e fs1,
    Inst.main_with Inst.urlopen_corrupt [Inst.repo] None false false = (Exn e, fs1) /\
    forall r, lookup fs1 (["repo"; "package"] ++ r) = lookup [Inst.repo] (["repo"; "package"] ++ r)) /\
  (let pi := {| url := "https://example.org/usd.zip"; checksum := "zz";
                checksum_algorithm := "sha256" |} in
   download_usd_entry Inst.hashlib (fun _ => Some [x62]) ["dl"] pi
     [EDir "dl" [EFile "usd.zip" [x61]]] =
   (Exn (ValueError ("USD zip checksum mismatch: " ++ "b" ++ " != " ++ "zz")),
    [EDir "dl" [EFile "usd.zip" [x62]]])).
Proof.
  split; cycle 1.
  { intros pi.
    apply (proj1 (checksum_mismatch_aborts_before_output Inst.ADDON_NAME
      Inst.ADDON_VERSION Inst.ADDON_NAME Inst.current_dir Inst.hashlib (fun _ => Some [x62])
      Inst.zip_bytes Inst.json_bytes list_byte_of_string)
      ["dl"] pi [EDir "dl" [EFile "usd.zip" [x61]]] [EDir "dl" []]
      [EDir "dl" [EFile "usd.zip" [x62]]] [x62] "b").
    - right. split; [vm_compute; reflexivity|]. split; [|vm_compute; reflexivity].
      exists "a". split; [vm_compute; reflexivity|discriminate].
    - reflexivity.
    - vm_compute. reflexivity.
    - vm_compute. reflexivity.
    - discriminate. }
  destruct (download_usd_zip Inst.ADDON_NAME Inst.hashlib Inst.urlopen_corrupt ["repo"; "downloads"]
    (snd (lift_io (fun fs => mkdir_exist_ok fs ["repo"; "downloads"]) [Inst.repo])))
    as [[infos|e] fs1] eqn:Hd.
  - vm_compute in Hd. discriminate Hd.
  - exists e, fs1.
    apply (proj2 (proj2 (checksum_mismatch_aborts_before_output Inst.ADDON_NAME
      Inst.ADDON_VERSION Inst.ADDON_NAME Inst.current_dir Inst.hashlib Inst.urlopen_corrupt
      Inst.zip_bytes Inst.json_bytes list_byte_of_string))
      None false false [Inst.repo]
      (snd (lift_io (fun fs => mkdir_exist_ok fs ["repo"; "downloads"]) [Inst.repo])) fs1 e).
    + intros r s Hx. cbv in Hx. discriminate Hx.
    + vm_compute. reflexivity.
    + exact Hd.
Defined.

(** C3, counterexample: with the repository itself as output directory
    ([-o] pointing at the addon's root), a run whose download is corrupted
    raises [ValueError], but the output directory has already changed: it
    now holds the [downloads] directory. *)
Lemma checksum_mismatch_touches_output :
  lookup [Inst.repo] ["repo"; "downloads"] = None /\
  match Inst.main_with Inst.urlopen_corrupt [Inst.repo] (Some ["repo"]) false false with
  | (Exn (ValueError _), fs1) => lookup fs1 ["repo"; "downloads"] <> None
  | _ => False
  end.
Proof. split; [reflexivity|]. vm_compute. intros H. discriminate H. Qed.

Local Abbreviation dl_dir := ["repo"; "downloads"].
Local Abbreviation dl_fs0 := (snd (lift_io (fun fs => mkdir_exist_ok fs dl_dir) [Inst.repo])).
Local Abbreviation dl_pi :=
  (snd (hd ("", "", {| url := ""; checksum := ""; checksum_algorithm := "" |})
           (usd_entries USD_SOURCES))).
Local Abbreviation dl_zip := (path_div dl_dir (last_segment (url dl_pi))).
Local Abbreviation dl_fs_good :=
  (snd (download_usd_zip Inst.ADDON_NAME Inst.hashlib Inst.urlopen_good dl_dir dl_fs0)).
Local Abbreviation dl_fs_bad :=
  (snd (download_usd_zip Inst.ADDON_NAME Inst.hashlib Inst.urlopen_corrupt dl_dir dl_fs0)).

Lemma download_usd_zip_cache_witness :
  (exists infos fs', download_usd_zip Inst.ADDON_NAME Inst.hashlib Inst.urlopen_good dl_dir dl_fs0
                     = (Ok infos, fs') /\ length infos = 2) /\
  download_usd_entry Inst.hashlib Inst.urlopen_good dl_dir dl_pi dl_fs_good = (Ok tt, dl_fs_good) /\
  (exists fs1, remove dl_fs_bad dl_zip = Ok fs1 /\ path_exists fs1 dl_zip = false /\
     download_usd_entry Inst.hashlib Inst.urlopen_good dl_dir dl_pi dl_fs_bad =
     download_usd_entry Inst.hashlib Inst.urlopen_good dl_dir dl_pi fs1) /\
  (exists body, Inst.urlopen_good (url dl_pi) = Some body /\
     lookup_in (snd (download_usd_entry Inst.hashlib Inst.urlopen_good dl_dir dl_pi dl_fs0)) dl_zip
       = Some (NFile body)).
Proof.
  destruct (download_usd_zip_cache Inst.ADDON_NAME Inst.hashlib Inst.urlopen_good)
    as (H1 & H2 & H3 & H4).
  split; [|split; [|split]].
  - destruct (download_usd_zip Inst.ADDON_NAME Inst.hashlib Inst.urlopen_good dl_dir dl_fs0)
      as [[infos|e] fs'] eqn:Hd; [|vm_compute in Hd; discriminate Hd].
    exists infos, fs'. split; [reflexivity|].
    rewrite (proj2 (H1 _ _ _ _ Hd)). reflexivity.
  - apply H2; vm_compute; reflexivity.
  - apply (H3 _ _ _ "corrupted"); [vm_compute; reflexivity|vm_compute; reflexivity|].
    vm_compute. intros H. discriminate H.
  - destruct (H4 dl_dir dl_pi dl_fs0
      (snd (download_usd_entry Inst.hashlib Inst.urlopen_good dl_dir dl_pi dl_fs0)))
      as (body & Hb & Hl & _); [vm_compute; reflexivity|vm_compute; reflexivity|].
    exists body. split; assumption.
Defined.

(** C2. The purge is [shutil.rmtree(output_dir)]: when the target version
    directory [out/ayon_usd/0.1.0] exists, the whole output directory is
    removed, so another version [out/ayon_usd/0.0.9] present before the
    run is gone after a run that ends normally (here with
    [--keep-sources]). *)
Theorem purge_removes_other_versions :
  lookup [Inst.repo; Inst.out_dir] ["out"; "ayon_usd"; "0.0.9"; "keep_me"] = Some (NFile [x63]) /\
  let '(r, fs') :=
    Inst.main_with Inst.urlopen_good [Inst.repo; Inst.out_dir] (Some ["out"]) false true in
  r = Ok tt /\
  isdir fs' ["out"; "ayon_usd"; "0.1.0"] = true /\
  lookup fs' ["out"; "ayon_usd"; "0.0.9"] = None.
Proof. split; [reflexivity|]. vm_compute. split; [reflexivity|split; reflexivity]. Qed.

(** C6. [os.makedirs] runs under [contextlib.suppress(Exception)]: when
    source and destination differ, whatever exception [makedirs] raises
    is dropped and [shutil.copy2] runs on the state it left; an
    exception of [copy2] is raised by [safe_copy_file]. *)
Theorem safe_copy_file_errors (src dst : path) (fs : fsys) :
  src <> dst ->
  (forall e, makedirs fs (dirname dst) = Exn e ->
     safe_copy_file src dst fs =
     match copy2 fs src dst with Ok fs2 => (Ok tt, fs2) | Exn e' => (Exn e', fs) end) /\
  (forall fs1, makedirs fs (dirname dst) = Ok fs1 ->
     safe_copy_file src dst fs =
     match copy2 fs1 src dst with Ok fs2 => (Ok tt, fs2) | Exn e' => (Exn e', fs1) end).
Proof.
  intros Hne. unfold safe_copy_file.
  destruct (list_eq_dec string_dec src dst) as [Heq|_]; [contradiction|].
  split; [intros e Hm|intros fs1 Hm];
    unfold bind, suppress, lift_io; cbv beta zeta; rewrite Hm; reflexivity.
Qed.

Lemma safe_copy_file_errors_witness :
  safe_copy_file ["a"] ["b"] [EFile "a" [x61]] =
  match copy2 [EFile "a" [x61]] ["a"] ["b"] with
  | Ok fs2 => (Ok tt, fs2) | Exn e' => (Exn e', [EFile "a" [x61]]) end.
Proof.
  exact (proj1 (safe_copy_file_errors ["a"] ["b"] [EFile "a" [x61]] ltac:(discriminate))
    FileNotFoundError ltac:(vm_compute; reflexivity)).
Defined.

(** C6, counterexample: copying [a] to [b] in the working directory,
    [os.makedirs("")] raises [FileNotFoundError], which is not a
    directory-already-exists error; it is suppressed and the copy is
    made. *)
Lemma safe_copy_file_suppresses_not_found :
  makedirs [EFile "a" [x61]] (dirname ["b"]) = Exn FileNotFoundError /\
  fst (safe_copy_file ["a"] ["b"] [EFile "a" [x61]]) = Ok tt /\
  lookup (snd (safe_copy_file ["a"] ["b"] [EFile "a" [x61]])) ["b"] = Some (NFile [x61]).
Proof. vm_compute. split; [reflexivity|split; reflexivity]. Qed.

(** C7. [initialize_environment] appends [root/lib/python] to [sys.path],
    sets the eight variables of [env_keys] -- among them three logger
    variables [AYONLOGGERLOGLVL], [AYONLOGGERSFILELOGGING] and
    [AYONLOGGERSFILEPOS] -- with [PATH] extended after its previous value
    ([None] when it was unset), and leaves every other variable alone. *)
Theorem initialize_environment_effect (root addon_dir : string) (p : process) :
  let p' := initialize_environment root addon_dir p in
  sys_path p' = sys_path p ++ [join (join root "lib") "python"] /\
  environ p' "PXR_PLUGINPATH_NAME" = Some addon_dir /\
  environ p' "USD_ASSET_RESOLVER" = Some "" /\
  environ p' "TF_DEBUG" = Some "1" /\
  environ p' "PYTHONPATH" = Some (join (join root "lib") "python") /\
  environ p' "PATH" = Some (py_str_opt (environ p "PATH") ++ pathsep ++ join root "bin")%string /\
  environ p' "AYONLOGGERLOGLVL" = Some "WARN" /\
  environ p' "AYONLOGGERSFILELOGGING" = Some "1" /\
  environ p' "AYONLOGGERSFILEPOS" = Some ".log" /\
  (forall k, ~ In k env_keys -> environ p' k = environ p k).
Proof.
  intros p'. repeat split; try reflexivity.
  intros k Hk. unfold p', initialize_environment, setenv. simpl.
  repeat match goal with
         | |- context [String.eqb k ?s] =>
             destruct (String.eqb_spec k s) as [->|_];
             [exfalso; apply Hk; simpl; tauto|]
         end.
  reflexivity.
Qed.

(** C7, counterexample: from an empty environment,
    [initialize_environment] sets three distinct logger variables
    ([AYONLOGGERLOGLVL], [AYONLOGGERSFILELOGGING], [AYONLOGGERSFILEPOS]),
    none of them among the five named path and resolver variables, so
    more than two logging variables are set. *)
Lemma initialize_environment_three_logger_vars :
  Forall (fun k =>
      environ (initialize_environment "/usd" "/addon" {| environ := fun _ => None; sys_path := [] |}) k
        <> None /\
      ~ In k ["PXR_PLUGINPATH_NAME"; "USD_ASSET_RESOLVER"; "TF_DEBUG"; "PYTHONPATH"; "PATH"])
    ["AYONLOGGERLOGLVL"; "AYONLOGGERSFILELOGGING"; "AYONLOGGERSFILEPOS"] /\
  NoDup ["AYONLOGGERLOGLVL"; "AYONLOGGERSFILELOGGING"; "AYONLOGGERSFILEPOS"].
Proof.
  split.
  - repeat constructor; first [vm_compute; intros H; discriminate H
                              | simpl; intuition discriminate].
  - repeat constructor; simpl; intuition discriminate.
Qed.

(** C8. [ZipFileLongPaths] writes as the base zip file does on every
    platform; on a platform whose [platform.system()] is not [Windows]
    (in any case) its [_extract_member] passes the target path to the
    base one unchanged, and on Windows it passes the extended-length
    form of the absolute path. *)
Theorem ZipFileLongPaths_spec (Member Pwd ExtractResult WriteArgs WriteResult : Type)
  (system : string) (abspath : string -> string)
  (base : zip_methods Member Pwd ExtractResult WriteArgs WriteResult) :
  zm_write (ZipFileLongPaths system abspath base) = zm_write base /\
  (_is_windows system = false -> forall member tpath pwd,
     zm_extract_member (ZipFileLongPaths system abspath base) member tpath pwd =
     zm_extract_member base member tpath pwd) /\
  (_is_windows system = true -> forall member tpath pwd,
     zm_extract_member (ZipFileLongPaths system abspath base) member tpath pwd =
     zm_extract_member base member (long_path abspath tpath) pwd).
Proof.
  split; [reflexivity|split]; intros Hw member tpath pwd; simpl; rewrite Hw; reflexivity.
Qed.

Lemma ZipFileLongPaths_spec_witness :
  let base := {| zm_write := fun s : string => s;
                 zm_extract_member := fun (m : string) (t : string) (_ : unit) => t |} in
  zm_extract_member (ZipFileLongPaths "Linux" (fun s => "C:\work\" ++ s)%string base)
    "a.txt" "out\a.txt" tt = "out\a.txt" /\
  zm_extract_member (ZipFileLongPaths "Windows" (fun s => "C:\work\" ++ s)%string base)
    "a.txt" "out\a.txt" tt = "\\?\C:\work\out\a.txt".
Proof.
  intros base. split.
  - exact (proj1 (proj2 (ZipFileLongPaths_spec _ _ _ _ _ "Linux" (fun s => "C:\work\" ++ s)%string base))
      ltac:(vm_compute; reflexivity) "a.txt" "out\a.txt" tt).
  - rewrite (proj2 (proj2 (ZipFileLongPaths_spec _ _ _ _ _ "Windows" (fun s => "C:\work\" ++ s)%string base))
      ltac:(vm_compute; reflexivity) "a.txt" "out\a.txt" tt).
    vm_compute. reflexivity.
Defined.

(** C9. The digest depends on the bytes of the file only: two files with
    the same content (or the same file read twice) give the same result.
    For a hash whose [update] is streaming ([update] of [a] then [b] is
    [update] of [a ++ b], and [update] of no bytes changes nothing), every
    chunk size but [0] gives the digest of the whole content hashed at
    once. *)
Theorem calculate_file_checksum_chunks (hashlib : string -> option hash_algo) :
  (forall fs1 fs2 p1 p2 alg chunk_size,
     read_file fs1 p1 = read_file fs2 p2 ->
     calculate_file_checksum hashlib fs1 p1 alg chunk_size =
     calculate_file_checksum hashlib fs2 p2 alg chunk_size) /\
  (forall alg H,
     hashlib alg = Some H ->
     (forall st a b, h_update H (h_update H st a) b = h_update H st (a ++ b)) ->
     (forall st, h_update H st [] = st) ->
     forall fs p chunk_size data,
       chunk_size <> 0%Z -> read_file fs p = Ok data ->
       calculate_file_checksum hashlib fs p alg chunk_size =
       Ok (h_hexdigest H (h_update H (h_init H) data))).
Proof.
  split.
  - intros fs1 fs2 p1 p2 alg k E. unfold calculate_file_checksum. rewrite E. reflexivity.
  - intros alg H Hh Ha Hn fs p k data Hk Hr. unfold calculate_file_checksum.
    rewrite Hh, Hr. rewrite (hash_chunks_spec H Ha Hn k Hk); [reflexivity|lia].
Qed.

Lemma calculate_file_checksum_chunks_witness :
  calculate_file_checksum Inst.hashlib [EFile "f" [x61; x62]] ["f"] "sha256" 1 =
  Ok (h_hexdigest Inst.toy_hash (h_update Inst.toy_hash (h_init Inst.toy_hash) [x61; x62])).
Proof.
  apply (proj2 (calculate_file_checksum_chunks Inst.hashlib) "sha256" Inst.toy_hash).
  - reflexivity.
  - intros st a b. simpl. symmetry. apply app_assoc.
  - intros st. simpl. apply app_nil_r.
  - discriminate.
  - reflexivity.
Defined.

(** C9, counterexample: with chunk size [0], [f.read(0)] returns [b""]
    at once, nothing is hashed, and the digest of a one-byte file is the
    digest of no bytes, not that of its content. *)
Lemma calculate_file_checksum_chunk_zero :
  calculate_file_checksum Inst.hashlib [EFile "f" [x61]] ["f"] "sha256" 0 = Ok "" /\
  calculate_file_checksum Inst.hashlib [EFile "f" [x61]] ["f"] "sha256" 10000 = Ok "a".
Proof. split; vm_compute; reflexivity. Qed.

(** * Further properties of the packager and the client *)

(** ** Helper lemmas *)

Lemma modify_in_exn (es : list entry) (p : path) (g : list entry -> res (list entry))
  (cs : list entry) (e : exn) :
  lookup_in es p = Some (NDir cs) -> g cs = Exn e -> modify_in es p g = Exn e.
Proof.
  revert es. induction p as [|n p IH]; intros es Hl Hg; simpl in *.
  - injection Hl as ->. exact Hg.
  - destruct (find_entry n es) as [[m d|m cs0]|]; [destruct p; discriminate| |discriminate].
    rewrite (IH cs0 Hl Hg). reflexivity.
Qed.

(** [os.mkdir] on a path that exists raises [FileExistsError]. *)
Lemma mkdir_existing (fs : fsys) (p : path) (nd : node) :
  lookup fs p = Some nd -> mkdir fs p = Exn FileExistsError.
Proof.
  intros H. unfold mkdir, at_parent. pose proof (split_last_spec p) as Hs.
  destruct (split_last p) as [[parent n]|]; [|subst p; discriminate].
  subst p. rewrite lookup_nonempty in H by apply not_eq_sym, app_cons_not_nil.
  rewrite lookup_in_app in H.
  destruct (lookup_in fs parent) as [[d|cs]|] eqn:Hp; try discriminate.
  simpl in H. destruct (find_entry n cs) as [e|] eqn:Hf; [|discriminate].
  apply (modify_in_exn _ _ _ cs); [exact Hp|]. rewrite Hf. reflexivity.
Qed.



Lemma makedirs_go_path (fuel : nat) : forall fs p fs',
  makedirs_go fuel fs p = Ok fs' -> mkdirs_path p fs fs'.
Proof.
  induction fuel as [|f IH]; intros fs p fs' H; simpl in H.
  - apply mkdirs_path_last. exact H.
  - pose proof (split_last_spec p) as Hsp.
    destruct (split_last p) as [[head t]|]; [|apply mkdirs_path_last; exact H].
    match type of H with
    | match ?x with Ok _ => _ | Exn _ => _ end = _ =>
        destruct x as [fs1|e] eqn:Hr; [|discriminate]
    end.
    apply (mkdirs_path_trans _ _ fs1); [|apply mkdirs_path_last; exact H].
    destruct (_ && _); [|injection Hr as <-; constructor].
    destruct (makedirs_go f fs head) as [fs2|[]] eqn:Hm; try discriminate;
      injection Hr as <-; [|constructor].
    apply (mkdirs_path_weaken head); [exact (IH _ _ _ Hm)|].
    exists [t]. symmetry. exact Hsp.
Qed.

(** A [mkdir] leaves every file as it was and creates none. *)
Lemma mkdir_files (fs fs1 : fsys) (q x : path) (d : list byte) :
  mkdir fs q = Ok fs1 ->
  (lookup_in fs1 x = Some (NFile d) <-> lookup_in fs x = Some (NFile d)).
Proof.
  intros H. apply mkdir_spec in H as (Hc & He & Hpre).
  destruct (prefix_dec q x) as [[r ->]|Hn].
  - rewrite He, Hpre. destruct r; split; discriminate.
  - destruct (Hc x Hn) as [E|(r & a & b & _ & Ha & Hb)].
    + rewrite E. reflexivity.
    + rewrite Ha, Hb. split; discriminate.
Qed.

Lemma mkdirs_path_files (p : path) (fs fs' : fsys) :
  mkdirs_path p fs fs' ->
  forall x d, lookup_in fs' x = Some (NFile d) <-> lookup_in fs x = Some (NFile d).
Proof.
  induction 1 as [|fs fs1 fs2 q _ Hm _ IH]; [reflexivity|].
  intros x d. rewrite IH. exact (mkdir_files _ _ _ _ _ Hm).
Qed.

(** A series of [mkdir] calls on prefixes of [p] changes no path that is
    neither a prefix of [p] nor under it. *)
Lemma mkdirs_path_outside (p : path) (fs fs' : fsys) :
  mkdirs_path p fs fs' -> outside_rel (fun q => comparable q p) fs fs'.
Proof.
  induction 1 as [|fs fs1 fs2 q [r Hq] Hm _ IH]; [apply outside_rel_refl|].
  intros x Hx. rewrite (IH x Hx).
  pose proof Hm as Hm'. apply mkdir_spec in Hm' as (Hc & He & Hpre).
  destruct (prefix_dec q x) as [[[|y l] ->]|Hn].
  - exfalso. apply Hx. exists r, []. rewrite app_nil_r, app_nil_r. exact Hq.
  - rewrite He, Hpre. reflexivity.
  - destruct (Hc x Hn) as [E|(r' & a & b & Hr' & _ & _)]; [exact E|].
    exfalso. apply Hx. exists (r' ++ r), []. rewrite app_nil_r, app_assoc, <- Hr'.
    exact Hq.
Qed.

Lemma makedirs_io_outside (p : path) :
  io_keeps_outside (fun q => comparable q p) (fun fs => makedirs fs p).
Proof.
  intros fs fs' H. apply makedirs_go_path in H. exact (mkdirs_path_outside _ _ _ H).
Qed.

Lemma dirname_app (P s : path) : s <> [] -> exists y, dirname (P ++ s) = P ++ y.
Proof.
  intros Hs. destruct (exists_last Hs) as (s' & t & ->).
  exists s'. unfold dirname. rewrite app_assoc, split_last_app. reflexivity.
Qed.

Lemma split_slash_go_nonempty (s cur : string) : split_slash_go s cur <> [].
Proof.
  revert cur. induction s as [|c s IH]; intros cur; simpl; [discriminate|].
  destruct (Ascii.eqb c "/"%char); [discriminate|apply IH].
Qed.

Lemma str_app_assoc (a b c : string) : ((a ++ b) ++ c)%string = (a ++ b ++ c)%string.
Proof. induction a as [|x a IH]; simpl; [reflexivity|]. rewrite IH. reflexivity. Qed.

Lemma substring_0_length (s : string) : substring 0 (String.length s) s = s.
Proof. induction s as [|c s IH]; simpl; [reflexivity|]. rewrite IH. reflexivity. Qed.

Lemma zip_write_result (zip_bytes : list (string * list byte) -> list byte)
  (zp : path) (ms : list (string * list byte)) (item : path * string)
  (fs fs' : fsys) (ms' : list (string * list byte)) :
  zip_write zip_bytes zp ms item fs = (Ok ms', fs') ->
  map fst ms' = map fst ms ++ [snd item] /\
  lookup_in fs' zp = Some (NFile (zip_bytes ms')) /\
  outside_rel (fun q => comparable q zp) fs fs'.
Proof.
  destruct item as [src arc]. unfold zip_write. intros E. peel E. peel E.
  unfold lift_res in E0. destruct (read_file fs src) as [data|e]; [|discriminate].
  injection E0 as <- <-. unfold ret in E. injection E as <- <-.
  apply lift_io_ok in E1. split; [rewrite map_app; reflexivity|]. split.
  - exact (write_file_at _ _ _ _ E1).
  - exact (proj2 (proj2 (write_file_io _ _)) _ _ E1).
Qed.

Lemma zip_write_all_result (zip_bytes : list (string * list byte) -> list byte)
  (zp : path) : forall items ms fs ms' fs',
  zip_write_all zip_bytes zp ms items fs = (Ok ms', fs') ->
  map fst ms' = map fst ms ++ map snd items /\
  (lookup_in fs zp = Some (NFile (zip_bytes ms)) ->
   lookup_in fs' zp = Some (NFile (zip_bytes ms'))) /\
  outside_rel (fun q => comparable q zp) fs fs'.
Proof.
  induction items as [|item items IH]; intros ms fs ms' fs' E; simpl in E.
  - injection E as <- <-. rewrite app_nil_r. split; [reflexivity|].
    split; [auto|apply outside_rel_refl].
  - peel E. apply zip_write_result in E0 as (Hm & Hl & Ho).
    destruct (IH _ _ _ _ E) as (Hm' & Hl' & Ho').
    split; [rewrite Hm', Hm, <- app_assoc; reflexivity|].
    split; [intros _; exact (Hl' Hl)|exact (outside_rel_trans _ _ _ _ Ho Ho')].
Qed.

Section PackagerExtras.
Variables ADDON_NAME ADDON_VERSION ADDON_CLIENT_DIR : string.
Variable current_dir : path.
Variable hashlib : string -> option hash_algo.
Variable urlopen : string -> option (list byte).
Variable zip_bytes : list (string * list byte) -> list byte.
Variable json_bytes : list file_info -> list byte.
Variable text_bytes : string -> list byte.


(** With the default ignore patterns, [find_files_in_subdir] reports no
    file whose name starts with a dot or ends in [.pyc], and nothing
    below a directory named [__pycache__] or starting with a dot; every
    reported pair is a file below the root with its root-relative path. *)
Theorem find_files_in_subdir_default_ignores (fs : fsys) (src_path : path)
  (es : list entry) :
  lookup fs src_path = Some (NDir es) -> wf_dir es ->
  exists output,
    find_files_in_subdir fs src_path None None = Ok output /\
    forall x r, In (x, r) output ->
      exists anc name d,
        x = src_path ++ anc ++ [name] /\ r = sep_join (anc ++ [name]) /\
        lookup fs x = Some (NFile d) /\
        starts_with "." name = false /\ ends_with_dollar ".pyc" name = false /\
        Forall (fun a => starts_with "." a = false /\ a <> "__pycache__") anc.
Proof.
  intros Hl Hwf.
  destruct (walk_spec fs IGNORE_FILE_PATTERNS IGNORE_DIR_PATTERNS (S (fs_size fs))
              [(src_path, [])] []) as (out & Hw & Hp).
  - constructor; [exists es; auto | constructor].
  - rewrite queue_size_cons. simpl fst. rewrite Hl.
    pose proof (lookup_in_size fs es src_path) as Hs.
    destruct src_path; [discriminate|]. specialize (Hs Hl).
    change (queue_size fs []) with 0. unfold fs_size. lia.
  - exists out. split; [exact Hw|].
    simpl in Hp. unfold queue_files in Hp. rewrite Hl, app_nil_r in Hp.
    intros x r Hin. apply (Permutation_in _ Hp) in Hin.
    apply (dfs_list_char _ _ es Hwf) in Hin
      as (anc & name & d & Hl' & Hf & Ha & Hx & Hr).
    exists anc, name, d. split; [exact Hx|]. split; [exact Hr|]. split.
    + rewrite Hx, (lookup_app _ _ _ _ Hl). exact Hl'.
    + unfold _value_match_regexes, IGNORE_FILE_PATTERNS in Hf. simpl in Hf.
      apply orb_false_iff in Hf as [Hf1 Hf2]. apply orb_false_iff in Hf2 as [Hf2 _].
      split; [exact Hf1|]. split; [exact Hf2|].
      revert Ha. apply Forall_impl. intros a Ha.
      unfold _value_match_regexes, IGNORE_DIR_PATTERNS in Ha. simpl in Ha.
      apply orb_false_iff in Ha as [Ha1 Ha2]. apply orb_false_iff in Ha2 as [Ha2 _].
      unfold re_pycache in Ha2. apply orb_false_iff in Ha2 as [Ha2 _].
      split; [exact Ha1|]. intros ->. discriminate Ha2.
Qed.


(** When an archive is not in the downloads directory and its URL cannot
    be fetched, the entry step of [download_usd_zip] raises [URLError]
    and leaves the file system as it was. *)
Theorem download_usd_entry_url_error (d : path) (pi : source_info) (fs : fsys) :
  path_exists fs (path_div d (last_segment (url pi))) = false ->
  urlopen (url pi) = None ->
  download_usd_entry hashlib urlopen d pi fs = (Exn URLError, fs).
Proof.
  intros Hex Hurl.
  cbv beta zeta delta [download_usd_entry bind query ret urlretrieve raise].
  rewrite Hex. cbv beta iota. rewrite Hurl. reflexivity.
Qed.

(** An archive whose declared [checksum_algorithm] is not in [hashlib]
    makes the entry step raise [AttributeError]: at once, without a
    change, when the archive is already stored; after downloading and
    storing it otherwise. *)
Theorem download_usd_entry_unknown_algorithm (d : path) (pi : source_info) :
  hashlib (checksum_algorithm pi) = None ->
  (forall fs, path_exists fs (path_div d (last_segment (url pi))) = true ->
   download_usd_entry hashlib urlopen d pi fs = (Exn AttributeError, fs)) /\
  (forall fs fs1 body,
   path_exists fs (path_div d (last_segment (url pi))) = false ->
   urlopen (url pi) = Some body ->
   write_file fs (path_div d (last_segment (url pi))) body = Ok fs1 ->
   download_usd_entry hashlib urlopen d pi fs = (Exn AttributeError, fs1)).
Proof.
  intros Hh. split.
  - intros fs Hex.
    cbv beta zeta delta [download_usd_entry bind query checksum_of lift_res ret].
    rewrite Hex. cbv beta iota. unfold calculate_file_checksum. rewrite Hh. reflexivity.
  - intros fs fs1 body Hex Hurl Hw.
    cbv beta zeta delta [download_usd_entry bind query checksum_of lift_res lift_io ret
                         urlretrieve raise].
    rewrite Hex. cbv beta iota. rewrite Hurl, Hw. cbv beta iota.
    unfold calculate_file_checksum. rewrite Hh. reflexivity.
Qed.

(** When the script's directory holds a file named [downloads], [main]
    raises [FileExistsError] at its first step, before any download, and
    changes nothing. *)
Theorem main_downloads_is_file (fs0 : fsys) (d : list byte)
  (output_dir : option path) (skip_zip keep_sources : bool) :
  lookup fs0 (current_dir ++ ["downloads"]) = Some (NFile d) ->
  main ADDON_NAME ADDON_VERSION ADDON_CLIENT_DIR current_dir hashlib urlopen
    zip_bytes json_bytes text_bytes output_dir skip_zip keep_sources fs0 =
  (Exn FileExistsError, fs0).
Proof.
  intros Hl.
  assert (Hm : mkdir_exist_ok fs0 (current_dir ++ ["downloads"]) = Exn FileExistsError).
  { unfold mkdir_exist_ok. rewrite (mkdir_existing _ _ _ Hl).
    unfold isdir. rewrite Hl. reflexivity. }
  unfold main, package_build, bind at 1 2, lift_io at 1. rewrite Hm. reflexivity.
Qed.

(** When [safe_copy_file] ends normally for two different paths and the
    destination was not a directory, the destination holds the bytes the
    source held before the call: the directories [os.makedirs] creates
    neither add nor change a file. *)
Theorem safe_copy_file_copies (src dst : path) (fs fs' : fsys) :
  src <> dst -> isdir fs dst = false ->
  safe_copy_file src dst fs = (Ok tt, fs') ->
  exists d, lookup fs src = Some (NFile d) /\ lookup fs' dst = Some (NFile d).
Proof.
  intros Hne Hdir E. unfold safe_copy_file in E.
  destruct (list_eq_dec string_dec src dst) as [Heq|_]; [contradiction|].
  peel E. unfold suppress, lift_io in E0.
  assert (Hp : mkdirs_path (dirname dst) fs fs0).
  { destruct (makedirs fs (dirname dst)) as [fs1|e] eqn:Hm; injection E0 as _ <-;
      [exact (makedirs_go_path _ _ _ _ Hm)|constructor]. }
  apply lift_io_ok in E. unfold copy2 in E.
  assert (Hnil : dst <> []).
  { intros ->. change (isdir fs0 []) with false in E. cbv beta zeta iota in E.
    destruct (list_eq_dec string_dec src []); [discriminate|].
    destruct (read_file fs0 src); [|discriminate].
    unfold write_file, at_parent in E. discriminate E. }
  assert (Hdir1 : isdir fs0 dst = false).
  { unfold isdir in Hdir |- *. rewrite lookup_nonempty in Hdir |- * by exact Hnil.
    destruct (lookup_in fs dst) as [[d0|cs]|] eqn:Hl; [| discriminate |].
    - apply (mkdirs_path_files _ _ _ Hp) in Hl. rewrite Hl. reflexivity.
    - destruct (mkdirs_path_io _ _ _ Hp) as [Ha _]. rewrite (Ha dst); [reflexivity| |exact Hl].
      intros (r & Hr). pose proof (split_last_spec dst) as Hs. unfold dirname in Hr.
      destruct (split_last dst) as [[h t]|]; [|congruence].
      apply (f_equal (@length string)) in Hr. rewrite Hs, !length_app in Hr.
      simpl in Hr. lia. }
  rewrite Hdir1 in E.
  destruct (list_eq_dec string_dec src dst) as [Heq|_]; [contradiction|].
  unfold read_file in E. destruct (lookup fs0 src) as [[d|cs]|] eqn:Hs; try discriminate.
  exists d. split.
  - assert (Hsn : src <> []) by (intros ->; discriminate).
    rewrite lookup_nonempty in Hs |- * by exact Hsn.
    apply (mkdirs_path_files _ _ _ Hp) in Hs. exact Hs.
  - rewrite lookup_nonempty by exact Hnil. exact (write_file_at _ _ _ _ E).
Qed.

(** Whatever its outcome, [copy_server_content] changes no path that is
    neither inside [addon_output_dir/server] nor one of the directories
    leading to it. *)
Theorem copy_server_content_frame (addon_output_dir : path) (fs fs' : fsys)
  (r : res unit) :
  copy_server_content current_dir addon_output_dir fs = (r, fs') ->
  forall q, ~ comparable q (addon_output_dir ++ ["server"]) ->
    lookup fs' q = lookup fs q.
Proof.
  intros E q Hq.
  assert (Hpres : preserves (outside_rel (fun q => comparable q (addon_output_dir ++ ["server"])))
                    (copy_server_content current_dir addon_output_dir)).
  { unfold copy_server_content. apply pres_bind; eauto with frames.
    - apply pres_lift_res; eauto with frames.
    - intros items. apply pres_mapM_; eauto with frames.
      intros [src dst] Hin. apply in_map_iff in Hin as ([s sub] & [= <- <-] & _).
      unfold safe_copy_file.
      destruct (list_eq_dec string_dec s _); [apply pres_ret; eauto with frames|].
      apply pres_bind; eauto with frames; [|intros _].
      + apply pres_suppress; eauto with frames. apply pres_lift_io; eauto with frames.
        destruct (dirname_app (addon_output_dir ++ ["server"]) (split_slash sub))
          as [y Hy]; [apply split_slash_go_nonempty|].
        rewrite <- app_assoc in Hy. simpl in Hy. rewrite Hy.
        intros fs1 fs2 H. apply makedirs_io_outside in H. revert H.
        apply outside_rel_weaken. intros x Hx.
        exact (comparable_ext _ _ _ Hx).
      + apply pres_lift_io; eauto with frames.
        intros fs1 fs2 H. apply (proj2 (proj2 (copy2_io _ _))) in H. revert H.
        apply outside_rel_weaken. intros x Hx.
        apply (comparable_ext _ _ (split_slash sub)). rewrite <- app_assoc. exact Hx. }
  specialize (Hpres _ _ _ E). destruct q as [|a q]; [reflexivity|].
  exact (Hpres _ Hq).
Qed.

(** When [create_server_package] ends normally and the walked directory
    is neither the archive's path nor inside it nor leading to it, the
    archive [<output_dir>/<ADDON_NAME>-<version>.zip] holds [package.py]
    first, then the files of [addon_output_dir] in [os.walk] order, each
    under its path relative to [addon_output_dir]. *)
Theorem create_server_package_members (output_dir addon_output_dir : path)
  (addon_version : string) (fs fs' : fsys) :
  ~ comparable addon_output_dir
      (output_dir ++ [(ADDON_NAME ++ "-" ++ addon_version ++ ".zip")%string]) ->
  create_server_package ADDON_NAME current_dir zip_bytes output_dir addon_output_dir
    addon_version fs = (Ok tt, fs') ->
  exists members,
    lookup fs' (output_dir ++ [(ADDON_NAME ++ "-" ++ addon_version ++ ".zip")%string]) =
      Some (NFile (zip_bytes members)) /\
    map fst members = "package.py" :: map snd (os_walk_files fs addon_output_dir).
Proof.
  set (op := output_dir ++ [(ADDON_NAME ++ "-" ++ addon_version ++ ".zip")%string]).
  intros Hc E. unfold create_server_package in E. fold op in E.
  peel E. peel E. peel E. unfold query in E2. injection E2 as <- <-. peel E.
  unfold ret in E. injection E as <-.
  unfold zip_open in E0. apply lift_io_ok in E0.
  apply zip_write_result in E1 as (Hm1 & Hl1 & Ho1).
  apply zip_write_all_result in E2 as (Hm2 & Hl2 & _).
  exists a1. split.
  - rewrite lookup_nonempty by apply not_eq_sym, app_cons_not_nil. exact (Hl2 Hl1).
  - rewrite Hm2, Hm1. simpl. f_equal.
    assert (Hw : lookup fs1 addon_output_dir = lookup fs addon_output_dir).
    { destruct addon_output_dir as [|x aod]; [reflexivity|].
      change (lookup_in fs1 (x :: aod) = lookup_in fs (x :: aod)).
      rewrite (Ho1 _ Hc). exact (proj2 (proj2 (write_file_io _ _)) _ _ E0 _ Hc). }
    unfold os_walk_files. rewrite Hw. reflexivity.
Qed.

(** When the addon's [client] directory exists and [zip_client_side]
    ends normally, [<addon_package_dir>/private/client.zip] holds exactly
    the client files [find_files_in_subdir] keeps with the default
    patterns, each under its path relative to [client], provided the
    [private] directory is neither inside [client] nor leading to it. *)
Theorem zip_client_side_members (addon_package_dir : path) (fs fs' : fsys)
  (es : list entry) :
  lookup fs (current_dir ++ ["client"]) = Some (NDir es) -> wf_dir es ->
  ~ comparable (current_dir ++ ["client"]) (addon_package_dir ++ ["private"]) ->
  zip_client_side current_dir zip_bytes addon_package_dir fs = (Ok tt, fs') ->
  exists members,
    lookup fs' (addon_package_dir ++ ["private"; "client.zip"]) =
      Some (NFile (zip_bytes members)) /\
    forall arc, In arc (map fst members) <->
      exists anc name d,
        lookup fs ((current_dir ++ ["client"]) ++ anc ++ [name]) = Some (NFile d) /\
        _value_match_regexes name IGNORE_FILE_PATTERNS = false /\
        Forall (fun a => _value_match_regexes a IGNORE_DIR_PATTERNS = false) anc /\
        arc = sep_join (anc ++ [name]).
Proof.
  set (client := current_dir ++ ["client"]).
  set (priv := addon_package_dir ++ ["private"]).
  intros Hl Hwf Hc E. unfold zip_client_side in E. fold client in E.
  assert (Hcn : client <> []) by apply not_eq_sym, app_cons_not_nil.
  assert (Hdir : isdir fs client = true) by (unfold isdir; rewrite Hl; reflexivity).
  peel E. unfold query in E0. injection E0 as <- <-. rewrite Hdir in E. simpl in E.
  fold priv in E. peel E. unfold query in E0. injection E0 as <- <-.
  peel E.
  assert (H1 : lookup fs0 client = lookup fs client).
  { cbv beta in E0. revert E0. destruct (path_exists fs priv); intros E0;
      [unfold ret in E0; injection E0 as _ <-; reflexivity|].
    apply lift_io_ok in E0. apply makedirs_go_path, mkdirs_path_outside in E0.
    rewrite !lookup_nonempty by exact Hcn. exact (E0 _ Hc). }
  clear E0.
  replace (priv ++ ["client.zip"]) with (addon_package_dir ++ ["private"; "client.zip"])
    in E by (unfold priv; rewrite <- app_assoc; reflexivity).
  set (zp := addon_package_dir ++ ["private"; "client.zip"]) in E.
  assert (Hcz : ~ comparable client zp).
  { intros Hx. apply Hc. unfold zp in Hx.
    replace (addon_package_dir ++ ["private"; "client.zip"]) with (priv ++ ["client.zip"])
      in Hx by (unfold priv; rewrite <- app_assoc; reflexivity).
    exact (comparable_ext _ _ _ Hx). }
  peel E. unfold zip_open in E0. apply lift_io_ok in E0.
  assert (H2 : lookup fs1 client = lookup fs client).
  { rewrite <- H1, !lookup_nonempty by exact Hcn.
    exact (proj2 (proj2 (write_file_io _ _)) _ _ E0 _ Hcz). }
  peel E. unfold lift_res in E1.
  destruct (find_files_in_subdir fs1 client None None) as [items|e] eqn:Hf; [|discriminate].
  injection E1 as <- <-. peel E. unfold ret in E. injection E as <-.
  apply zip_write_all_result in E1 as (Hm & Hz & _).
  exists a1. split.
  - rewrite lookup_nonempty by (unfold zp; apply not_eq_sym, app_cons_not_nil).
    apply Hz. exact (write_file_at _ _ _ _ E0).
  - rewrite Hm. simpl. intros arc.
    rewrite <- H2 in Hl.
    destruct (walk_spec fs1 IGNORE_FILE_PATTERNS IGNORE_DIR_PATTERNS (S (fs_size fs1))
                [(client, [])] []) as (out & Hw & Hp).
    + constructor; [exists es; auto | constructor].
    + rewrite queue_size_cons. simpl fst. rewrite Hl.
      pose proof (lookup_in_size fs1 es client) as Hs.
      rewrite lookup_nonempty in Hl by exact Hcn. specialize (Hs Hl).
      change (queue_size fs1 []) with 0. unfold fs_size. lia.
    + unfold find_files_in_subdir in Hf. cbv beta iota zeta in Hf.
      pose proof (eq_trans (eq_sym Hf) Hw) as Hio. injection Hio as ->.
      simpl in Hp. unfold queue_files in Hp. rewrite Hl, app_nil_r in Hp.
      rewrite in_map_iff. split.
      * intros ([x r] & <- & Hin). apply (Permutation_in _ Hp) in Hin.
        apply (dfs_list_char _ _ es Hwf) in Hin
          as (anc & name & d & Hl' & Hfp & Ha & Hx & Hr).
        exists anc, name, d. repeat split; auto.
        rewrite (lookup_app _ _ _ _ (eq_trans (eq_sym H2) Hl)). exact Hl'.
      * intros (anc & name & d & Hl' & Hfp & Ha & Hr).
        exists (client ++ anc ++ [name], arc). split; [reflexivity|].
        apply (Permutation_in _ (Permutation_sym Hp)).
        apply (dfs_list_char _ _ es Hwf).
        exists anc, name, d. rewrite (lookup_app _ _ _ _ (eq_trans (eq_sym H2) Hl)) in Hl'.
        repeat split; auto.
Qed.

End PackagerExtras.


(** One call of [initialize_environment], read back variable by variable:
    the last [setenv] of a key wins, [PATH] is built from the value the
    process had before the call. *)
Lemma initialize_environment_environ (root addon_dir : string) (p : process) (k : string) :
  environ (initialize_environment root addon_dir p) k =
  if String.eqb k "AYONLOGGERSFILEPOS" then Some ".log"
  else if String.eqb k "AYONLOGGERSFILELOGGING" then Some "1"
  else if String.eqb k "AYONLOGGERLOGLVL" then Some "WARN"
  else if String.eqb k "PATH" then
    Some (py_str_opt (environ p "PATH") ++ pathsep ++ join root "bin")%string
  else if String.eqb k "PYTHONPATH" then Some (join (join root "lib") "python")
  else if String.eqb k "TF_DEBUG" then Some "1"
  else if String.eqb k "USD_ASSET_RESOLVER" then Some ""
  else if String.eqb k "PXR_PLUGINPATH_NAME" then Some addon_dir
  else environ p k.
Proof. reflexivity. Qed.

(** [initialize_environment] is not idempotent: a second call appends
    [root/lib/python] to [sys.path] again and appends [root/bin] to [PATH]
    again; every other variable keeps the value the first call gave it. *)
Theorem initialize_environment_twice (root addon_dir : string) (p : process) :
  let p1 := initialize_environment root addon_dir p in
  let p2 := initialize_environment root addon_dir p1 in
  sys_path p2 = sys_path p ++ [join (join root "lib") "python"; join (join root "lib") "python"] /\
  environ p2 "PATH" =
    Some (py_str_opt (environ p "PATH") ++ pathsep ++ join root "bin" ++
          pathsep ++ join root "bin")%string /\
  (forall k, k <> "PATH" -> environ p2 k = environ p1 k).
Proof.
  intros p1 p2. split; [|split].
  - unfold p2, p1, initialize_environment, setenv. cbn [sys_path].
    rewrite <- app_assoc. reflexivity.
  - unfold p2. rewrite initialize_environment_environ.
    unfold p1. rewrite initialize_environment_environ.
    simpl. rewrite str_app_assoc. reflexivity.
  - intros k Hk. unfold p2. rewrite (initialize_environment_environ _ _ p1).
    apply String.eqb_neq in Hk. rewrite Hk.
    repeat match goal with
           | |- context [String.eqb k ?s] => destruct (String.eqb_spec k s) as [->|?]
           end;
    try reflexivity; unfold p1; rewrite initialize_environment_environ; reflexivity.
Qed.

(** On Windows, [ZipFileLongPaths] does not recognise a target whose
    absolute form is already an extended-length path [\\?\...]: since it
    starts with two backslashes it is taken for a UNC path, and the base
    [_extract_member] receives [\\?\UNC\?\...]. *)
Theorem ZipFileLongPaths_extended_path (Member Pwd ExtractResult WriteArgs WriteResult : Type)
  (base : zip_methods Member Pwd ExtractResult WriteArgs WriteResult)
  (system : string) (abspath : string -> string) (member : Member) (tpath s : string)
  (pwd : Pwd) :
  _is_windows system = true ->
  abspath tpath = ("\\?\" ++ s)%string ->
  zm_extract_member (ZipFileLongPaths system abspath base) member tpath pwd =
  zm_extract_member base member ("\\?\UNC\?\" ++ s)%string pwd.
Proof.
  intros Hw Ha. simpl. rewrite Hw. unfold long_path. rewrite Ha. simpl.
  unfold drop2. simpl. rewrite substring_0_length. reflexivity.
Qed.


Lemma find_files_in_subdir_default_ignores_witness :
  lookup Inst.ex_fs ["server"] = Some (NDir Inst.ex_server) /\
  wf_dir Inst.ex_server /\
  exists output,
    find_files_in_subdir Inst.ex_fs ["server"] None None = Ok output /\
    forall x r, In (x, r) output -> exists anc name d, lookup Inst.ex_fs x = Some (NFile d) /\
      starts_with "." name = false /\ ends_with_dollar ".pyc" name = false /\
      Forall (fun a => starts_with "." a = false /\ a <> "__pycache__") anc /\
      x = ["server"] ++ anc ++ [name].
Proof.
  assert (Hw : wf_dir Inst.ex_server).
  { unfold wf_dir, Inst.ex_server. simpl. split.
    - repeat constructor; simpl; intuition discriminate.
    - repeat constructor; simpl; intuition discriminate. }
  split; [reflexivity|]. split; [exact Hw|].
  destruct (find_files_in_subdir_default_ignores Inst.ex_fs ["server"] Inst.ex_server
              eq_refl Hw) as (out & H1 & H2).
  exists out. split; [exact H1|].
  intros x r Hin. destruct (H2 x r Hin) as (anc & name & d & Hx & _ & Hl & Hs & He & Ha).
  exists anc, name, d. repeat split; assumption.
Defined.


Lemma download_usd_entry_url_error_witness :
  let pi := {| url := "https://example.org/usd.zip"; checksum := "00";
               checksum_algorithm := "sha256" |} in
  path_exists [Inst.repo] (path_div ["repo"; "downloads"] (last_segment (url pi))) = false /\
  download_usd_entry Inst.hashlib (fun _ => None) ["repo"; "downloads"] pi [Inst.repo]
    = (Exn URLError, [Inst.repo]).
Proof.
  intros pi. split; [vm_compute; reflexivity|].
  apply (download_usd_entry_url_error Inst.hashlib (fun _ => None)); [vm_compute|];
    reflexivity.
Defined.

Lemma download_usd_entry_unknown_algorithm_witness :
  let pi := {| url := "https://example.org/usd.zip"; checksum := "00";
               checksum_algorithm := "md5" |} in
  let stored := [EDir "dl" [EFile "usd.zip" [x61]]] in
  let body := [x62] in
  let fs1 := match write_file [EDir "dl" []] ["dl"; "usd.zip"] body with
             | Ok f => f | Exn _ => [] end in
  download_usd_entry Inst.hashlib (fun _ => Some body) ["dl"] pi stored
    = (Exn AttributeError, stored) /\
  write_file [EDir "dl" []] (path_div ["dl"] (last_segment (url pi))) body = Ok fs1 /\
  download_usd_entry Inst.hashlib (fun _ => Some body) ["dl"] pi [EDir "dl" []]
    = (Exn AttributeError, fs1).
Proof.
  intros pi stored body fs1.
  destruct (download_usd_entry_unknown_algorithm Inst.hashlib (fun _ => Some body) ["dl"] pi
              eq_refl) as [H1 H2].
  split; [|split].
  - apply H1. vm_compute. reflexivity.
  - vm_compute. reflexivity.
  - apply (H2 _ _ body); vm_compute; reflexivity.
Defined.

Lemma main_downloads_is_file_witness :
  lookup [EDir "repo" [EFile "downloads" []]] (Inst.current_dir ++ ["downloads"])
    = Some (NFile []) /\
  Inst.main_with Inst.urlopen_good [EDir "repo" [EFile "downloads" []]] None false false
    = (Exn FileExistsError, [EDir "repo" [EFile "downloads" []]]).
Proof.
  split; [reflexivity|].
  exact (main_downloads_is_file Inst.ADDON_NAME Inst.ADDON_VERSION Inst.ADDON_NAME
    Inst.current_dir Inst.hashlib Inst.urlopen_good Inst.zip_bytes Inst.json_bytes
    list_byte_of_string [EDir "repo" [EFile "downloads" []]] [] None false false eq_refl).
Defined.

Lemma safe_copy_file_copies_witness :
  let fs' := snd (safe_copy_file ["a"] ["d"; "b"] [EFile "a" [x61]]) in
  safe_copy_file ["a"] ["d"; "b"] [EFile "a" [x61]] = (Ok tt, fs') /\
  exists d, lookup [EFile "a" [x61]] ["a"] = Some (NFile d) /\
            lookup fs' ["d"; "b"] = Some (NFile d).
Proof.
  intros fs'.
  assert (E : safe_copy_file ["a"] ["d"; "b"] [EFile "a" [x61]] = (Ok tt, fs'))
    by (vm_compute; reflexivity).
  split; [exact E|].
  exact (safe_copy_file_copies ["a"] ["d"; "b"] [EFile "a" [x61]] fs'
           ltac:(discriminate) eq_refl E).
Defined.

Lemma copy_server_content_frame_witness :
  let run := copy_server_content Inst.current_dir ["pkg"] [Inst.repo; EDir "pkg" []] in
  run = (Ok tt, snd run) /\
  lookup (snd run) ["repo"; "package.py"] = lookup [Inst.repo; EDir "pkg" []] ["repo"; "package.py"] /\
  lookup (snd run) ["pkg"] <> lookup [Inst.repo; EDir "pkg" []] ["pkg"].
Proof.
  intros run.
  assert (E : run = (Ok tt, snd run)) by (vm_compute; reflexivity).
  split; [exact E|]. split.
  - apply (copy_server_content_frame Inst.current_dir ["pkg"] _ _ _ E).
    intros (r & s & H). discriminate H.
  - vm_compute. discriminate.
Defined.

Lemma create_server_package_members_witness :
  let fs := [Inst.repo; EDir "out" []] in
  let run := create_server_package Inst.ADDON_NAME Inst.current_dir Inst.zip_bytes ["out"]
               ["repo"; "server"] "0.1.0" fs in
  run = (Ok tt, snd run) /\
  exists members,
    lookup (snd run) ["out"; "ayon_usd-0.1.0.zip"] = Some (NFile (Inst.zip_bytes members)) /\
    map fst members = ["package.py"; "__init__.py"; "settings.pyc"].
Proof.
  intros fs run.
  assert (E : run = (Ok tt, snd run)) by (vm_compute; reflexivity).
  split; [exact E|].
  destruct (create_server_package_members Inst.ADDON_NAME Inst.current_dir Inst.zip_bytes
              ["out"] ["repo"; "server"] "0.1.0" fs (snd run)
              ltac:(intros (r & s & H); discriminate H) E) as (ms & H1 & H2).
  exists ms. split; [exact H1|]. rewrite H2. vm_compute. reflexivity.
Defined.

Lemma zip_client_side_members_witness :
  let run := zip_client_side Inst.current_dir Inst.zip_bytes ["pkg"] [Inst.repo] in
  run = (Ok tt, snd run) /\
  exists members,
    lookup (snd run) ["pkg"; "private"; "client.zip"] = Some (NFile (Inst.zip_bytes members)) /\
    In "ayon_usd/__init__.py" (map fst members).
Proof.
  intros run.
  assert (E : run = (Ok tt, snd run)) by (vm_compute; reflexivity).
  assert (Hwf : wf_dir [EDir "ayon_usd" [EFile "__init__.py" [x62]]]).
  { unfold wf_dir. simpl. split; repeat constructor; simpl; intuition discriminate. }
  split; [exact E|].
  destruct (zip_client_side_members Inst.current_dir Inst.zip_bytes ["pkg"] [Inst.repo]
              (snd run) _ eq_refl Hwf ltac:(intros (r & s & H); discriminate H) E)
    as (ms & H1 & H2).
  exists ms. split; [exact H1|]. apply H2.
  exists ["ayon_usd"], "__init__.py", [x62]. split; [reflexivity|].
  split; [vm_compute; reflexivity|]. split; [|reflexivity].
  constructor; [vm_compute; reflexivity|constructor].
Defined.

Lemma initialize_environment_twice_witness :
  let p := {| environ := fun k => if String.eqb k "PATH" then Some "/bin" else None;
              sys_path := [] |} in
  let p1 := initialize_environment "/usd" "/addon" p in
  let p2 := initialize_environment "/usd" "/addon" p1 in
  sys_path p2 = ["/usd/lib/python"; "/usd/lib/python"] /\
  environ p2 "PATH" = Some "/bin:/usd/bin:/usd/bin" /\
  environ p2 "TF_DEBUG" = environ p1 "TF_DEBUG".
Proof.
  intros p p1 p2.
  destruct (initialize_environment_twice "/usd" "/addon" p) as (H1 & H2 & H3).
  split; [|split].
  - exact H1.
  - exact H2.
  - apply H3. discriminate.
Defined.

Lemma ZipFileLongPaths_extended_path_witness :
  let base := {| zm_write := fun s : string => s;
                 zm_extract_member := fun (m : string) (t : string) (_ : unit) => t |} in
  _is_windows "Windows" = true /\
  zm_extract_member (ZipFileLongPaths "Windows" (fun s => s) base) "a.txt" "\\?\C:\out\a.txt" tt
    = "\\?\UNC\?\C:\out\a.txt".
Proof.
  intros base. split; [vm_compute; reflexivity|].
  exact (ZipFileLongPaths_extended_path _ _ _ _ _ base "Windows" (fun s => s) "a.txt"
           "\\?\C:\out\a.txt" "C:\out\a.txt" tt ltac:(vm_compute; reflexivity) eq_refl).
Defined.
